(** * haveibeenbreached: the addAccountsToBreach handler

    A shallow embedding of [addAccountsToBreach/main.go] and the properties
    of its email parser, its breach-list merge and its batch pipeline.

    Go strings are byte sequences: they are modelled by [string] (a list of
    8-bit [ascii]).  A Go [error] is modelled by the text of its message;
    a Go function returning [(T, error)] returns a pair whose second
    component is [None] for a nil error. *)

From Stdlib Require Import Ascii String.
From stdpp Require Import gmap strings list pretty.

Local Open Scope char_scope.
Local Open Scope string_scope.
Local Open Scope list_scope.
Local Open Scope stdpp_scope.

Definition error := string.

(** ** Regular expressions (package [regexp]) *)

Module Regexp.

(** One item of a bracket expression: a range [lo-hi] or a single byte. *)
Inductive citem : Type :=
| Range (lo hi : ascii)
| Single (c : ascii).

Definition in_item (c : ascii) (i : citem) : bool :=
  match i with
  | Range lo hi => (N_of_ascii lo <=? N_of_ascii c)%N && (N_of_ascii c <=? N_of_ascii hi)%N
  | Single d => Ascii.eqb c d
  end.

Definition in_class (cs : list citem) (c : ascii) : bool :=
  existsb (in_item c) cs.

Inductive regex : Type :=
| Void
| Eps
| Class (cs : list citem)
| Cat (r1 r2 : regex)
| Alt (r1 r2 : regex)
| Star (r : regex).

(** [x?], [x+] and [x{0,n}] are the usual abbreviations. *)
Definition Opt (r : regex) : regex := Alt r Eps.
Definition Plus (r : regex) : regex := Cat r (Star r).
Definition Lit (c : ascii) : regex := Class [Single c].

Fixpoint Upto (n : nat) (r : regex) : regex :=
  match n with
  | O => Eps
  | S n' => Opt (Cat r (Upto n' r))
  end.

(** The words of a regular expression. *)
Inductive lang : regex -> list ascii -> Prop :=
| lang_eps : lang Eps []
| lang_class cs c : in_class cs c = true -> lang (Class cs) [c]
| lang_cat r1 r2 w1 w2 : lang r1 w1 -> lang r2 w2 -> lang (Cat r1 r2) (w1 ++ w2)
| lang_alt_l r1 r2 w : lang r1 w -> lang (Alt r1 r2) w
| lang_alt_r r1 r2 w : lang r2 w -> lang (Alt r1 r2) w
| lang_star_nil r : lang (Star r) []
| lang_star_app r w1 w2 : lang r w1 -> lang (Star r) w2 -> lang (Star r) (w1 ++ w2).

(** Matching by derivatives. *)
Fixpoint nullable (r : regex) : bool :=
  match r with
  | Void => false
  | Eps => true
  | Class _ => false
  | Cat r1 r2 => nullable r1 && nullable r2
  | Alt r1 r2 => nullable r1 || nullable r2
  | Star _ => true
  end.

Definition cat (r1 r2 : regex) : regex :=
  match r1, r2 with
  | Void, _ => Void
  | _, Void => Void
  | Eps, _ => r2
  | _, Eps => r1
  | _, _ => Cat r1 r2
  end.

Definition alt (r1 r2 : regex) : regex :=
  match r1, r2 with
  | Void, _ => r2
  | _, Void => r1
  | _, _ => Alt r1 r2
  end.

Fixpoint deriv (c : ascii) (r : regex) : regex :=
  match r with
  | Void => Void
  | Eps => Void
  | Class cs => if in_class cs c then Eps else Void
  | Cat r1 r2 =>
      alt (cat (deriv c r1) r2) (if nullable r1 then deriv c r2 else Void)
  | Alt r1 r2 => alt (deriv c r1) (deriv c r2)
  | Star r1 => cat (deriv c r1) (Star r1)
  end.

Fixpoint matches (r : regex) (w : list ascii) : bool :=
  match w with
  | [] => nullable r
  | c :: w' => matches (deriv c r) w'
  end.

(** [MatchString] for a pattern of the form [^r$]: without the [m] flag the
    two anchors pin the match to the whole text. *)
Definition MatchString (r : regex) (s : string) : bool :=
  matches r (String.list_ascii_of_string s).

End Regexp.

Import Regexp.

(** ** Package [strings] and [fmt] *)

(** [strings.Split(s, sep)] for a separator of one byte. *)
Fixpoint Split (s : string) (sep : ascii) : list string :=
  match s with
  | EmptyString => [EmptyString]
  | String c rest =>
      if Ascii.eqb c sep then EmptyString :: Split rest sep
      else match Split rest sep with
           | hd :: tl => String c hd :: tl
           | [] => [String c EmptyString]
           end
  end.

(** [l[i]] on a slice of strings; the index is shown to be in range where it
    is used ([NewEmail_index_in_range]). *)
Definition index (l : list string) (i : nat) : string := nth i l "".

(** [contains] *)
Fixpoint contains (arr : list string) (str : string) : bool :=
  match arr with
  | [] => false
  | el :: arr' => if String.eqb el str then true else contains arr' str
  end.

(** ** Emails *)

Definition alnum_items : list citem :=
  [Range "a" "z"; Range "A" "Z"; Range "0" "9"].

(** [[a-zA-Z0-9.!#$%&'*+\/=?^_`{|}~-]] *)
Definition local_items : list citem :=
  alnum_items ++
  [Single "."; Single "!"; Single "#"; Single "$"; Single "%"; Single "&";
   Single "'"; Single "*"; Single "+"; Single "/"; Single "="; Single "?";
   Single "^"; Single "_"; Single "`"; Single "{"; Single "|"; Single "}";
   Single "~"; Single "-"].

(** [[a-zA-Z0-9-]] *)
Definition inner_items : list citem := alnum_items ++ [Single "-"].

(** [[a-zA-Z0-9](?:[a-zA-Z0-9-]{0,61}[a-zA-Z0-9])?] *)
Definition labelRegex : regex :=
  Cat (Class alnum_items)
      (Opt (Cat (Upto 61 (Class inner_items)) (Class alnum_items))).

Definition emailRegex : regex :=
  Cat (Plus (Class local_items))
      (Cat (Lit "@")
           (Cat labelRegex (Star (Cat (Lit ".") labelRegex)))).

Record Email : Type := mkEmail { Domain : string; Alias : string }.

Definition NewEmail (emailStr : string) : Email * option error :=
  if negb (MatchString emailRegex emailStr) then
    (mkEmail "" "", Some ("not a valid email address: " +:+ emailStr))
  else
    let email := Split emailStr "@" in
    ({| Alias := index email 0; Domain := index email 1 |}, None).

Definition Email_Account (e : Email) : string := Alias e +:+ "@" +:+ Domain e.
Definition Email_PartitionKey (e : Email) : string := "EMAIL#" +:+ Domain e.
Definition Email_SortKey (e : Email) : string := "EMAIL#" +:+ Alias e.

(** ** The email grammar, in the words of the specification

    A raw string is an email when it has exactly one [@], a non-empty alias of
    local-part characters before it, and after it a domain made of labels
    separated by dots, each label 1 to 63 characters long, alphanumeric with
    hyphens allowed inside but neither first nor last. *)

Definition spec_alnum (c : ascii) : bool :=
  let n := nat_of_ascii c in
  ((48 <=? n) && (n <=? 57) || (65 <=? n) && (n <=? 90) || (97 <=? n) && (n <=? 122))%nat.

Definition spec_punct : list ascii :=
  String.list_ascii_of_string ".!#$%&'*+/=?^_`{|}~-".

Definition spec_local_char (c : ascii) : bool :=
  spec_alnum c || bool_decide (c ∈ spec_punct).

Definition spec_valid_label (l : list ascii) : bool :=
  (1 <=? length l)%nat && (length l <=? 63)%nat
  && forallb (fun c => spec_alnum c || Ascii.eqb c "-") l
  && negb (bool_decide (head l = Some "-"%char))
  && negb (bool_decide (last l = Some "-"%char)).

Definition spec_valid_email (raw : string) : bool :=
  match Split raw "@" with
  | [alias; domain] =>
      negb (String.eqb alias "")
      && forallb spec_local_char (String.list_ascii_of_string alias)
      && forallb (fun l => spec_valid_label (String.list_ascii_of_string l))
                 (Split domain ".")
  | _ => false
  end.

(** ** [Split] on byte lists *)

Fixpoint split_bytes (sep : ascii) (w : list ascii) : list (list ascii) :=
  match w with
  | [] => [[]]
  | c :: w' =>
      if Ascii.eqb c sep then [] :: split_bytes sep w'
      else match split_bytes sep w' with
           | hd :: tl => (c :: hd) :: tl
           | [] => [[c]]
           end
  end.

(** The words of a list joined with [sep] in front of each of them. *)
Definition prefixed (sep : ascii) (ws : list (list ascii)) : list ascii :=
  concat (map (cons sep) ws).

(** ** The pattern and the grammar accept the same strings *)

Definition email_shape (w : list ascii) : Prop :=
  exists alias l ls,
    w = alias ++ "@"%char :: l ++ prefixed "." ls /\
    alias <> [] /\
    forallb spec_local_char alias = true /\
    forallb spec_valid_label (l :: ls) = true.

(** ** Records of [main.go] *)

Record Account : Type := mkAccount {
  PK : string;
  SK : string;
  Type_ : string;
  Account_ : string;
  Breaches : list string
}.

Definition with_Breaches (a : Account) (b : list string) : Account :=
  {| PK := PK a; SK := SK a; Type_ := Type_ a; Account_ := Account_ a; Breaches := b |}.

Record AddAccountEvent : Type := mkEvent {
  Accounts : list string;
  BreachName : string   (* [PathParameters.BreachName] *)
}.

Record Response : Type := mkResponse {
  StatusCode : nat;
  Headers : list (string * string);
  Body : string;
  IsBase64Encoded : bool
}.

Definition tableName : string := "Breaches".
Definition entityType : string := "Account".

(** ** The libraries the handler calls

    The AWS SDK's attribute-value encoding, the JSON encoder and the printing
    of a request are not part of this repository: they are the operations of
    a class, and the facts about them that a property needs are stated where
    it needs them. *)

Class SDK : Type := {
  (** [map[string]*dynamodb.AttributeValue] *)
  Item : Type;
  (** [dynamodbattribute.MarshalMap] *)
  MarshalMap : Account -> Item * option error;
  (** [dynamodbattribute.UnmarshalMap] into a fresh [&Account{}] *)
  UnmarshalMap : Item -> Account * option error;
  (** the attributes [PK] and [SK] of an item, the primary key of the table *)
  item_key : Item -> string * string;
  (** [json.Marshal] of a [map[string]interface{}] with string values *)
  json_Marshal : list (string * string) -> string * option error;
  (** [%+v] of a [*dynamodb.PutItemInput] *)
  show_PutItemInput : Item -> string -> string
}.

(** ** The DynamoDB service [svc]

    The state of the world is the content of the table, the outcome the
    service will give to each coming request ([None]: the request is served;
    requests beyond the list are served), and the requests made so far. *)

Inductive Event {sdk : SDK} : Type :=
| EvGetItem (pk sk : string) (err : option error)
| EvPutItem (item : Item) (err : option error).

Record World {sdk : SDK} : Type := mkWorld {
  table : gmap (string * string) Item;
  outcomes : list (option error);
  trace : list Event
}.

Section Service.
Context {sdk : SDK}.

Definition next_outcome (w : World) : option error :=
  match outcomes w with
  | o :: _ => o
  | [] => None
  end.

(** [svc.GetItem]: the item under the key, or a nil [Item]. *)
Definition svc_GetItem (w : World) (pk sk : string) : World * (option Item * option error) :=
  let err := next_outcome w in
  let w' := {| table := table w; outcomes := tail (outcomes w);
               trace := trace w ++ [EvGetItem pk sk err] |} in
  match err with
  | Some e => (w', (None, Some e))
  | None => (w', (table w !! (pk, sk), None))
  end.

(** [svc.PutItem]: the item replaces what the table holds under its key. *)
Definition svc_PutItem (w : World) (item : Item) : World * option error :=
  let err := next_outcome w in
  match err with
  | Some e =>
      ({| table := table w; outcomes := tail (outcomes w);
          trace := trace w ++ [EvPutItem item err] |}, Some e)
  | None =>
      ({| table := <[item_key item := item]> (table w); outcomes := tail (outcomes w);
          trace := trace w ++ [EvPutItem item err] |}, None)
  end.

(** ** [mapToAccount] *)

Definition newAccount (email : Email) : Account :=
  {| PK := Email_PartitionKey email;
     SK := Email_SortKey email;
     Type_ := entityType;
     Account_ := Email_Account email;
     Breaches := [] |}.

(** The loop tests [err], which nothing has assigned yet, and not [emailErr]. *)
Fixpoint mapToAccount_loop (accounts : list string) (accs : list Account)
    (err : option error) : list Account * option error :=
  match accounts with
  | [] => (accs, err)
  | account :: rest =>
      let '(email, emailErr) := NewEmail account in
      match err with
      | Some _ => (accs, emailErr)
      | None => mapToAccount_loop rest (accs ++ [newAccount email]) err
      end
  end.

Definition mapToAccount (accounts : list string) : list Account * option error :=
  let '(accs, err) := mapToAccount_loop accounts [] None in
  match err with
  | Some e => ([], Some e)
  | None => (accs, None)
  end.

(** ** [setAccountBreaches] *)

(** Lines 149-154: the breach list of an account that has a record. *)
Definition merged_breaches (existing : list string) (breachName : string) : list string :=
  if contains existing breachName then existing else existing ++ [breachName].

Fixpoint setAccountBreaches_loop (w : World) (accounts : list Account)
    (breachName : string) (accs : list Account) : World * (list Account * option error) :=
  match accounts with
  | [] => (w, (accs, None))
  | account :: rest =>
      let '(w1, (result, getItemErr)) := svc_GetItem w (PK account) (SK account) in
      match getItemErr with
      | Some e => (w1, (accs, Some e))
      | None =>
          match result with
          | Some item =>
              let '(existingAcc, unmarshalErr) := UnmarshalMap item in
              match unmarshalErr with
              | Some e => (w1, (accs, Some e))
              | None =>
                  let breaches := merged_breaches (Breaches existingAcc) breachName in
                  setAccountBreaches_loop w1 rest breachName
                    (accs ++ [with_Breaches account breaches])
              end
          | None =>
              setAccountBreaches_loop w1 rest breachName
                (accs ++ [with_Breaches account [breachName]])
          end
      end
  end.

Definition setAccountBreaches (w : World) (accounts : list Account) (breachName : string)
    : World * (list Account * option error) :=
  let '(w', (accs, err)) := setAccountBreaches_loop w accounts breachName [] in
  match err with
  | Some e => (w', ([], Some e))
  | None => (w', (accs, None))
  end.

(** ** [marshalMapToAttributeValues] *)

(** Here too the loop tests [err] and not [marshalErr]. *)
Fixpoint marshalMap_loop (accounts : list Account) (attrVals : list Item)
    (err : option error) : list Item * option error :=
  match accounts with
  | [] => (attrVals, err)
  | account :: rest =>
      let '(attrVal, marshalErr) := MarshalMap account in
      match err with
      | Some _ => (attrVals, marshalErr)
      | None => marshalMap_loop rest (attrVals ++ [attrVal]) err
      end
  end.

Definition marshalMapToAttributeValues (accounts : list Account) : list Item * option error :=
  let '(attrVals, err) := marshalMap_loop accounts [] None in
  match err with
  | Some e => ([], Some e)
  | None => (attrVals, None)
  end.

(** ** [Handler] *)

(** Lines 61-70: the first [PutItem] that fails ends the loop and the call. *)
Fixpoint putItems (w : World) (attrVals : list Item) : World * option (Item * error) :=
  match attrVals with
  | [] => (w, None)
  | attrVal :: rest =>
      let '(w1, err) := svc_PutItem w attrVal in
      match err with
      | Some e => (w1, Some (attrVal, e))
      | None => putItems w1 rest
      end
  end.

Definition error_response (body : string) : Response :=
  {| StatusCode := 400; Headers := []; Body := body; IsBase64Encoded := false |}.

Definition success_message (numAccounts : nat) (breachName : string) : string :=
  "Successfully added/updated " +:+ pretty numAccounts +:+ " accounts to the "
  +:+ breachName +:+ " breach.".

Definition Handler (w : World) (event : AddAccountEvent) : World * (Response * option error) :=
  let rawAccounts := Accounts event in
  let breachName := BreachName event in
  let '(accounts, err) := mapToAccount rawAccounts in
  match err with
  | Some e => (w, (error_response ("Invalid email: " +:+ e), Some e))
  | None =>
  let '(w1, (accounts, err)) := setAccountBreaches w accounts breachName in
  match err with
  | Some e => (w1, (error_response ("Invalid email: " +:+ e), Some e))
  | None =>
  let '(attrVals, err) := marshalMapToAttributeValues accounts in
  match err with
  | Some e => (w1, (error_response ("Error marshalling new Account: " +:+ e), Some e))
  | None =>
  let '(w2, failed) := putItems w1 attrVals in
  match failed with
  | Some (attrVal, e) =>
      (w2, (error_response ("Error adding Account " +:+ show_PutItemInput attrVal tableName
                            +:+ " to breach: " +:+ e), Some e))
  | None =>
  let numAccounts := length accounts in
  let '(body, err) := json_Marshal [("message", success_message numAccounts breachName)] in
  match err with
  | Some e => (w2, (error_response "", Some e))
  | None =>
      (w2, ({| StatusCode := 200;
               IsBase64Encoded := false;
               Body := body;
               Headers := [("Content-Type", "application/json")] |}, None))
  end end end end end.

End Service.

(** ** An in-memory table

    An instance of the libraries to run the handler on: an item is an account
    record as it is, or an entity of another kind, which does not decode to an
    account. *)

Module Mem.

Inductive item : Type :=
| AccountItem (a : Account)
| OtherItem (pk sk : string).

Definition zero_Account : Account :=
  {| PK := ""; SK := ""; Type_ := ""; Account_ := ""; Breaches := [] |}.

Definition unmarshal (i : item) : Account * option error :=
  match i with
  | AccountItem a => (a, None)
  | OtherItem _ _ => (zero_Account, Some "UnmarshalTypeError")
  end.

Definition key (i : item) : string * string :=
  match i with
  | AccountItem a => (PK a, SK a)
  | OtherItem pk sk => (pk, sk)
  end.

(** The encoding of an object whose keys and values need no escape. *)
Definition quoted (s : string) : string :=
  let q := String (ascii_of_nat 34) EmptyString in q +:+ s +:+ q.

Fixpoint json_fields (fields : list (string * string)) : string :=
  match fields with
  | [] => EmptyString
  | [(k, v)] => quoted k +:+ ":" +:+ quoted v
  | (k, v) :: rest => quoted k +:+ ":" +:+ quoted v +:+ "," +:+ json_fields rest
  end.

#[export] Instance sdk : SDK := {|
  Item := item;
  MarshalMap := fun a => (AccountItem a, None);
  UnmarshalMap := unmarshal;
  item_key := key;
  json_Marshal := fun fields => ("{" +:+ json_fields fields +:+ "}", None);
  show_PutItemInput := fun _ tbl => "{TableName: " +:+ tbl +:+ "}"
|}.

Definition empty_world : World := {| table := ∅; outcomes := []; trace := [] |}.

End Mem.

(** * Vocabulary of the properties *)

(** ** Requests and their effect *)

Definition is_get {sdk : SDK} (ev : Event) : bool :=
  match ev with EvGetItem _ _ _ => true | EvPutItem _ _ => false end.

Definition is_put {sdk : SDK} (ev : Event) : bool :=
  match ev with EvGetItem _ _ _ => false | EvPutItem _ _ => true end.

Definition ev_failed {sdk : SDK} (ev : Event) : bool :=
  match ev with
  | EvGetItem _ _ (Some _) | EvPutItem _ (Some _) => true
  | _ => false
  end.

(** The account [mapToAccount] builds from a raw string. *)
Definition account_of (raw : string) : Account := newAccount (fst (NewEmail raw)).

(** What [setAccountBreaches] makes of an account against a table. *)
Definition updated {sdk : SDK} (tbl : gmap (string * string) Item) (breachName : string)
    (account : Account) : Account :=
  with_Breaches account
    match tbl !! (PK account, SK account) with
    | Some item => merged_breaches (Breaches (fst (UnmarshalMap item))) breachName
    | None => [breachName]
    end.

(** The table after the items of a list have been put, in order. *)
Definition put_all {sdk : SDK} (tbl : gmap (string * string) Item) (items : list Item)
    : gmap (string * string) Item :=
  foldl (fun m i => <[item_key i := i]> m) tbl items.

(** The number of bytes [c] in a string. *)
Fixpoint count_byte (c : ascii) (s : string) : nat :=
  match s with
  | EmptyString => 0
  | String x s' => (if Ascii.eqb x c then 1 else 0) + count_byte c s'
  end.

Definition get_ok {sdk : SDK} (a : Account) : Event := EvGetItem (PK a) (SK a) None.
Definition put_ok {sdk : SDK} (a : Account) : Event := EvPutItem (fst (MarshalMap a)) None.

Definition success_response {sdk : SDK} (numAccounts : nat) (breachName : string) : Response :=
  {| StatusCode := 200;
     Headers := [("Content-Type", "application/json")];
     Body := fst (json_Marshal
                    [("message",
                      "Successfully added/updated " +:+ pretty numAccounts
                      +:+ " accounts to the " +:+ breachName +:+ " breach.")]);
     IsBase64Encoded := false |}.

(** Every item of the table that one of the accounts would read decodes. *)
Definition decodable {sdk : SDK} (tbl : gmap (string * string) Item)
    (accounts : list Account) : Prop :=
  forall a item, a ∈ accounts -> tbl !! (PK a, SK a) = Some item ->
    snd (UnmarshalMap item) = None.

(** The next [n] requests are served. *)
Definition served {sdk : SDK} (n : nat) (w : World) : Prop :=
  Forall (fun o => o = None) (take n (outcomes w)).

(** A batch with one string that is no email. *)
Definition batch_alice_bad : AddAccountEvent :=
  {| Accounts := ["alice@example.com"; "not-an-email"]; BreachName := "BigLeak" |}.

(** ** Records in the table *)

(** The breach list stored for a raw email. *)
Definition stored_breaches {sdk : SDK} (tbl : gmap (string * string) Item) (raw : string)
    : option (list string) :=
  match tbl !! (PK (account_of raw), SK (account_of raw)) with
  | Some item => Some (Breaches (fst (UnmarshalMap item)))
  | None => None
  end.

Definition well_formed (a : Account) : Prop :=
  Type_ a = "Account" /\
  (exists alias domain,
     PK a = "EMAIL#" +:+ domain /\ SK a = "EMAIL#" +:+ alias /\
     Account_ a = alias +:+ "@" +:+ domain) /\
  NoDup (Breaches a).

(** Every item of the table is the record of a well-formed account, stored
    under the keys of that account. *)
Definition table_inv {sdk : SDK} (tbl : gmap (string * string) Item) : Prop :=
  forall k item, tbl !! k = Some item ->
    exists a, UnmarshalMap item = (a, None) /\ k = (PK a, SK a) /\ well_formed a.

(** The items a call writes, when it comes to write them all. *)
Definition items_of {sdk : SDK} (tbl : gmap (string * string) Item) (event : AddAccountEvent)
    : list Item :=
  map (fun raw => fst (MarshalMap (updated tbl (BreachName event) (account_of raw))))
      (Accounts event).

(** The item of a [PutItem] request is one of [items]. *)
Definition put_of {sdk : SDK} (items : list Item) (ev : Event) : Prop :=
  match ev with
  | EvPutItem i _ => i ∈ items
  | EvGetItem _ _ _ => True
  end.

(** Calls made one after the other. *)
Fixpoint run {sdk : SDK} (w : World) (events : list AddAccountEvent) : World :=
  match events with
  | [] => w
  | event :: rest => run (fst (Handler w event)) rest
  end.

(** The request made for an account, the request made for an item. *)
Definition get_for {sdk : SDK} (a : Account) (ev : Event) : Prop :=
  exists o, ev = EvGetItem (PK a) (SK a) o.

Definition put_for {sdk : SDK} (i : Item) (ev : Event) : Prop :=
  exists o, ev = EvPutItem i o.

(** ** Worlds with a failing write and with a record of another kind *)

Module Cases.

(** The table of one record; the two reads and the first write of a batch of
    two are served, the second write fails. *)
Definition w_put_timeout : @World Mem.sdk :=
  {| table := {[ ("EMAIL#example.com", "EMAIL#alice") :=
                   Mem.AccountItem
                     {| PK := "EMAIL#example.com"; SK := "EMAIL#alice"; Type_ := "Account";
                        Account_ := "alice@example.com"; Breaches := ["LeakA"] |} ]};
     outcomes := [None; None; None; Some "timeout"];
     trace := [] |}.

(** Under the keys of [alice@example.com] the table holds an entity that is
    no account. *)
Definition w_foreign : @World Mem.sdk :=
  {| table := {[ ("EMAIL#example.com", "EMAIL#alice") :=
                   Mem.OtherItem "EMAIL#example.com" "EMAIL#alice" ]};
     outcomes := [];
     trace := [] |}.

Definition bob_alice_bob (breachName : string) : AddAccountEvent :=
  {| Accounts := ["bob@example.org"; "alice@example.com"; "bob@example.org"];
     BreachName := breachName |}.


End Cases.

(** ** Sample worlds and batches *)

Module Sample.

#[local] Existing Instance Mem.sdk.

Definition alice_LeakA : Account :=
  {| PK := "EMAIL#example.com"; SK := "EMAIL#alice"; Type_ := "Account";
     Account_ := "alice@example.com"; Breaches := ["LeakA"] |}.

(** A table with one record, every request served. *)
Definition w_alice : @World Mem.sdk :=
  {| table := {[ ("EMAIL#example.com", "EMAIL#alice") := Mem.AccountItem alice_LeakA ]};
     outcomes := [];
     trace := [] |}.

(** An empty table; the second request will fail. *)
Definition w_timeout : @World Mem.sdk :=
  {| table := ∅; outcomes := [None; Some "timeout"]; trace := [] |}.

Definition alice_bob (breachName : string) : AddAccountEvent :=
  {| Accounts := ["alice@example.com"; "bob@example.org"]; BreachName := breachName |}.

End Sample.

(** * Properties *)

(** ** The parser on sample strings *)

Example NewEmail_bob :
  NewEmail "bob@example.org" = ({| Domain := "example.org"; Alias := "bob" |}, None).
Proof. vm_compute. reflexivity. Qed.

Example NewEmail_bad_label :
  NewEmail "user@-badlabel-.com" =
  (mkEmail "" "", Some "not a valid email address: user@-badlabel-.com").
Proof. vm_compute. reflexivity. Qed.

Example NewEmail_two_at :
  snd (NewEmail "a@b@example.org") = Some "not a valid email address: a@b@example.org".
Proof. vm_compute. reflexivity. Qed.

Example NewEmail_long_label :
  snd (NewEmail "a@a23456789012345678901234567890123456789012345678901234567890123.org") = None /\
  snd (NewEmail "a@a234567890123456789012345678901234567890123456789012345678901234.org") <> None.
Proof. vm_compute. split; [reflexivity | discriminate]. Qed.

(** ** The derivative matcher decides [lang] *)

Section RegexpFacts.

Lemma lang_void_inv w : lang Void w <-> False.
Proof. split; [inversion 1 | tauto]. Qed.

Lemma lang_eps_inv w : lang Eps w <-> w = [].
Proof. split; [by inversion 1 | intros ->; constructor]. Qed.

Lemma lang_class_inv cs w :
  lang (Class cs) w <-> exists c, w = [c] /\ in_class cs c = true.
Proof.
  split.
  - inversion 1; subst; eauto.
  - intros (c & -> & Hc). by constructor.
Qed.

Lemma lang_cat_inv r1 r2 w :
  lang (Cat r1 r2) w <-> exists w1 w2, w = w1 ++ w2 /\ lang r1 w1 /\ lang r2 w2.
Proof.
  split.
  - inversion 1; subst; eauto.
  - intros (w1 & w2 & -> & H1 & H2). by constructor.
Qed.

Lemma lang_alt_inv r1 r2 w : lang (Alt r1 r2) w <-> lang r1 w \/ lang r2 w.
Proof.
  split.
  - inversion 1; subst; auto.
  - intros [H | H]; [by apply lang_alt_l | by apply lang_alt_r].
Qed.

Lemma lang_opt_inv r w : lang (Opt r) w <-> lang r w \/ w = [].
Proof. unfold Opt. by rewrite lang_alt_inv, lang_eps_inv. Qed.

Lemma nullable_spec r : nullable r = true <-> lang r [].
Proof.
  induction r as [| | cs | r1 IH1 r2 IH2 | r1 IH1 r2 IH2 | r IH]; simpl.
  - rewrite lang_void_inv. split; [discriminate | tauto].
  - split; [constructor | done].
  - rewrite lang_class_inv. split; [discriminate | by intros (c & ? & _)].
  - rewrite andb_true_iff, IH1, IH2, lang_cat_inv. split.
    + intros [H1 H2]. by exists [], [].
    + intros (w1 & w2 & Hw & H1 & H2).
      symmetry in Hw. apply app_eq_nil in Hw as [-> ->]. done.
  - by rewrite orb_true_iff, IH1, IH2, lang_alt_inv.
  - split; [constructor | done].
Qed.

Lemma cat_lang r1 r2 w : lang (cat r1 r2) w <-> lang (Cat r1 r2) w.
Proof.
  rewrite lang_cat_inv.
  assert (Hl : forall r, lang r w <-> exists w1 w2, w = w1 ++ w2 /\ lang Eps w1 /\ lang r w2).
  { intros r. split.
    - intros H. exists [], w. repeat split; [constructor | done].
    - intros (w1 & w2 & -> & H1 & H2). apply lang_eps_inv in H1 as ->. done. }
  assert (Hr : forall r, lang r w <-> exists w1 w2, w = w1 ++ w2 /\ lang r w1 /\ lang Eps w2).
  { intros r. split.
    - intros H. exists w, []. rewrite app_nil_r. repeat split; [done | constructor].
    - intros (w1 & w2 & -> & H1 & H2). apply lang_eps_inv in H2 as ->.
      by rewrite app_nil_r. }
  assert (Hv1 : forall r, lang Void w <-> exists w1 w2, w = w1 ++ w2 /\ lang Void w1 /\ lang r w2).
  { intros r. rewrite lang_void_inv. split; [tauto |].
    intros (w1 & w2 & _ & H1 & _). by apply lang_void_inv in H1. }
  assert (Hv2 : forall r, lang Void w <-> exists w1 w2, w = w1 ++ w2 /\ lang r w1 /\ lang Void w2).
  { intros r. rewrite lang_void_inv. split; [tauto |].
    intros (w1 & w2 & _ & _ & H2). by apply lang_void_inv in H2. }
  destruct r1, r2; simpl; try apply Hv1; try apply Hv2; try apply Hl; try apply Hr;
    by rewrite <- lang_cat_inv.
Qed.

Lemma alt_lang r1 r2 w : lang (alt r1 r2) w <-> lang (Alt r1 r2) w.
Proof.
  rewrite lang_alt_inv.
  destruct r1, r2; simpl; rewrite ?lang_alt_inv, ?lang_void_inv; tauto.
Qed.

(** A non-empty word of [Star r] starts with a non-empty word of [r]. *)
Lemma lang_star_cons r c w :
  lang (Star r) (c :: w) ->
  exists w1 w2, w = w1 ++ w2 /\ lang r (c :: w1) /\ lang (Star r) w2.
Proof.
  intros H. remember (Star r) as r' eqn:Hr. remember (c :: w) as cw eqn:Hcw.
  revert c w Hcw.
  induction H as [| | | | | | r0 w1 w2 H1 _ H2 IH2]; try discriminate.
  injection Hr as ->. intros c w Hcw.
  destruct w1 as [| c1 w1]; simpl in Hcw.
  - by apply IH2.
  - injection Hcw as -> <-. eauto.
Qed.

Lemma deriv_spec c r w : lang (deriv c r) w <-> lang r (c :: w).
Proof.
  revert w.
  induction r as [| | cs | r1 IH1 r2 IH2 | r1 IH1 r2 IH2 | r IH]; intros w; simpl.
  - by rewrite !lang_void_inv.
  - rewrite lang_void_inv, lang_eps_inv. split; [tauto | discriminate].
  - rewrite lang_class_inv. destruct (in_class cs c) eqn:Hc.
    + rewrite lang_eps_inv. split.
      * intros ->. eauto.
      * intros (c' & [= -> ->] & _). done.
    + rewrite lang_void_inv. split; [tauto |].
      intros (c' & [= -> ->] & Hc'). congruence.
  - rewrite alt_lang, lang_alt_inv, cat_lang, !lang_cat_inv. split.
    + intros [(w1 & w2 & -> & H1 & H2) | H].
      * exists (c :: w1), w2. rewrite <- IH1. done.
      * destruct (nullable r1) eqn:Hn; [| by apply lang_void_inv in H].
        exists [], (c :: w). rewrite <- IH2, <- nullable_spec. done.
    + intros (w1 & w2 & Hw & H1 & H2). destruct w1 as [| c1 w1]; simpl in Hw.
      * right. apply nullable_spec in H1 as ->. apply IH2. by rewrite Hw.
      * injection Hw as <- ->. left. exists w1, w2. by rewrite IH1.
  - by rewrite alt_lang, !lang_alt_inv, IH1, IH2.
  - rewrite cat_lang, lang_cat_inv. split.
    + intros (w1 & w2 & -> & H1 & H2). apply IH in H1.
      by apply (lang_star_app r (c :: w1) w2).
    + intros H. apply lang_star_cons in H as (w1 & w2 & -> & H1 & H2).
      exists w1, w2. by rewrite IH.
Qed.

Lemma matches_spec r w : matches r w = true <-> lang r w.
Proof.
  revert r. induction w as [| c w IH]; intros r; simpl.
  - apply nullable_spec.
  - by rewrite IH, deriv_spec.
Qed.

End RegexpFacts.

Example spec_valid_email_samples :
  spec_valid_email "alice@example.com" = true /\
  spec_valid_email "not-an-email" = false /\
  spec_valid_email "user@-badlabel-.com" = false /\
  spec_valid_email "a@b@c.d" = false /\
  spec_valid_email "a.b+c@x-y.z9" = true /\
  spec_valid_email "a@b..c" = false.
Proof. vm_compute. repeat split. Qed.

(** ** The character classes of the pattern and of the grammar *)

Section CharClasses.

Ltac all_bytes c := destruct c as [[] [] [] [] [] [] [] []]; vm_compute; try reflexivity.

Lemma alnum_class c : in_class alnum_items c = spec_alnum c.
Proof. all_bytes c. Qed.

Lemma local_class c : in_class local_items c = spec_local_char c.
Proof. all_bytes c. Qed.

Lemma inner_class c : in_class inner_items c = spec_alnum c || Ascii.eqb c "-".
Proof. all_bytes c. Qed.

Lemma alnum_not_hyphen c : spec_alnum c = true -> c <> "-"%char.
Proof. intros H ->. discriminate. Qed.

Lemma local_not_at c : spec_local_char c = true -> c <> "@"%char.
Proof. intros H ->. discriminate. Qed.

Lemma inner_not_at c : spec_alnum c || Ascii.eqb c "-" = true -> c <> "@"%char.
Proof. intros H ->. discriminate. Qed.

Lemma inner_not_dot c : spec_alnum c || Ascii.eqb c "-" = true -> c <> "."%char.
Proof. intros H ->. discriminate. Qed.

End CharClasses.

(** ** Words of the email pattern *)

Section EmailLanguage.

Lemma forallb_pointwise {A} (f g : A -> bool) (l : list A) :
  (forall x, f x = g x) -> forallb f l = forallb g l.
Proof. intros Hfg. induction l as [| x l IH]; simpl; [done | by rewrite Hfg, IH]. Qed.

Lemma lang_star_class cs w :
  lang (Star (Class cs)) w <-> forallb (in_class cs) w = true.
Proof.
  split.
  - intros H. remember (Star (Class cs)) as r eqn:Hr.
    induction H as [| | | | | | r0 w1 w2 H1 _ H2 IH2]; try discriminate; [done |].
    injection Hr as ->. apply lang_class_inv in H1 as (c & -> & Hc).
    simpl. rewrite Hc. by apply IH2.
  - induction w as [| c w IH]; simpl; [constructor |].
    intros [Hc Hw]%andb_true_iff.
    apply (lang_star_app _ [c] w); [by constructor | by apply IH].
Qed.

Lemma lang_plus_class cs w :
  lang (Plus (Class cs)) w <-> w <> [] /\ forallb (in_class cs) w = true.
Proof.
  unfold Plus. rewrite lang_cat_inv. split.
  - intros (w1 & w2 & -> & (c & -> & Hc)%lang_class_inv & H2%lang_star_class).
    simpl. by rewrite Hc.
  - intros [Hne Hall]. destruct w as [| c w]; [done |].
    simpl in Hall. apply andb_true_iff in Hall as [Hc Hw].
    exists [c], w. rewrite lang_star_class. repeat split; [by constructor | done].
Qed.

Lemma lang_upto_class n cs w :
  lang (Upto n (Class cs)) w <-> length w <= n /\ forallb (in_class cs) w = true.
Proof.
  revert w. induction n as [| n IH]; intros w; simpl.
  - rewrite lang_eps_inv. split.
    + by intros ->.
    + intros [Hl _]. destruct w; [done | simpl in Hl; lia].
  - rewrite lang_opt_inv, lang_cat_inv. split.
    + intros [(w1 & w2 & -> & (c & -> & Hc)%lang_class_inv & [Hl Hw]%IH) | ->].
      * simpl. rewrite Hc. split; [lia | done].
      * simpl. split; [lia | done].
    + intros [Hl Hall]. destruct w as [| c w]; [by right | left].
      simpl in Hl, Hall. apply andb_true_iff in Hall as [Hc Hw].
      exists [c], w. rewrite IH. repeat split; [by constructor | lia | done].
Qed.

(** A word of the label pattern: one alphanumeric byte, optionally followed by
    up to 61 inner bytes and a closing alphanumeric byte. *)
Lemma lang_label_shape w :
  lang labelRegex w <->
  exists a rest, w = a :: rest /\ spec_alnum a = true /\
    (rest = [] \/
     exists mid z, rest = mid ++ [z] /\ length mid <= 61 /\
       forallb (fun c => spec_alnum c || Ascii.eqb c "-") mid = true /\
       spec_alnum z = true).
Proof.
  unfold labelRegex. rewrite lang_cat_inv. split.
  - intros (w1 & w2 & -> & (a & -> & Ha)%lang_class_inv & H2).
    rewrite alnum_class in Ha. exists a, w2. repeat split; [done |].
    apply lang_opt_inv in H2 as [H2 | ->]; [right | by left].
    apply lang_cat_inv in H2
      as (mid & w3 & -> & [Hl Hmid]%lang_upto_class & (z & -> & Hz)%lang_class_inv).
    rewrite alnum_class in Hz. exists mid, z.
    split; [done |]. split; [done |]. split; [| done].
    rewrite (forallb_pointwise _ (in_class inner_items)); [exact Hmid |].
    intros c. by rewrite inner_class.
  - intros (a & rest & -> & Ha & Hrest).
    exists [a], rest. repeat split.
    + constructor. by rewrite alnum_class.
    + apply lang_opt_inv. destruct Hrest as [-> | (mid & z & -> & Hl & Hmid & Hz)];
        [by right | left].
      apply lang_cat_inv. exists mid, [z]. repeat split.
      * apply lang_upto_class. split; [done |].
        rewrite (forallb_pointwise _ (fun c => spec_alnum c || Ascii.eqb c "-"));
          [exact Hmid | apply inner_class].
      * constructor. by rewrite alnum_class.
Qed.

Lemma inner_alnum c :
  spec_alnum c || Ascii.eqb c "-" = true -> c <> "-"%char -> spec_alnum c = true.
Proof.
  intros [H | H%Ascii.eqb_eq]%orb_true_iff Hne; [done | by destruct Hne].
Qed.

Lemma lang_label w : lang labelRegex w <-> spec_valid_label w = true.
Proof.
  rewrite lang_label_shape. unfold spec_valid_label.
  rewrite !andb_true_iff, !negb_true_iff, !bool_decide_eq_false.
  rewrite Nat.leb_le, Nat.leb_le. split.
  - intros (a & rest & -> & Ha & Hrest).
    assert (Ha' : a <> "-"%char) by by apply alnum_not_hyphen.
    destruct Hrest as [-> | (mid & z & -> & Hl & Hmid & Hz)]; simpl.
    + rewrite Ha. repeat split; [lia | lia | congruence | congruence].
    + assert (Hz' : z <> "-"%char) by by apply alnum_not_hyphen.
      rewrite Ha, forallb_app, Hmid. simpl. rewrite Hz. simpl.
      rewrite length_app. simpl. repeat split; [lia | lia | congruence |].
      change (a :: mid ++ [z]) with ((a :: mid) ++ [z]). rewrite last_snoc. congruence.
  - intros ((((Hl1 & Hl2) & Hall) & Hhd) & Hlast).
    destruct w as [| a rest]; [simpl in Hl1; lia |].
    simpl in Hall, Hhd. apply andb_true_iff in Hall as [Ha Hrest].
    exists a, rest. repeat split.
    + apply inner_alnum; [done | congruence].
    + destruct rest as [| b rest'] using rev_ind; [by left | right].
      clear IHrest'. exists rest', b.
      rewrite forallb_app in Hrest. apply andb_true_iff in Hrest as [Hmid Hb].
      simpl in Hb. rewrite andb_true_r in Hb.
      change (a :: rest' ++ [b]) with ((a :: rest') ++ [b]) in Hlast, Hl2.
      rewrite last_snoc in Hlast. rewrite length_app in Hl2. simpl in Hl2.
      repeat split; [lia | done |]. apply inner_alnum; [done | congruence].
Qed.

End EmailLanguage.

(** ** [Split] on byte lists *)

Section SplitFacts.

Lemma Split_bytes s sep :
  Split s sep =
  map String.string_of_list_ascii (split_bytes sep (String.list_ascii_of_string s)).
Proof.
  induction s as [| c s IH]; simpl; [done |].
  destruct (Ascii.eqb c sep); simpl; [by rewrite IH |].
  rewrite IH. by destruct (split_bytes sep (String.list_ascii_of_string s)).
Qed.

Lemma split_bytes_fresh sep w : sep ∉ w -> split_bytes sep w = [w].
Proof.
  induction w as [| c w IH]; simpl; [done |].
  intros [Hc Hw]%not_elem_of_cons.
  destruct (Ascii.eqb_spec c sep) as [-> | _]; [done |]. by rewrite IH.
Qed.

Lemma split_bytes_app sep w1 w2 :
  sep ∉ w1 -> split_bytes sep (w1 ++ sep :: w2) = w1 :: split_bytes sep w2.
Proof.
  induction w1 as [| c w1 IH]; simpl.
  - intros _. by rewrite Ascii.eqb_refl.
  - intros [Hc Hw]%not_elem_of_cons.
    destruct (Ascii.eqb_spec c sep) as [-> | _]; [done |]. by rewrite IH.
Qed.

Lemma split_bytes_join sep w :
  exists hd tl, split_bytes sep w = hd :: tl /\ w = hd ++ prefixed sep tl.
Proof.
  induction w as [| c w (hd & tl & Hs & Hw)]; simpl.
  - by exists [], [].
  - destruct (Ascii.eqb_spec c sep) as [-> | _].
    + exists [], (hd :: tl). rewrite Hs. split; [done |].
      unfold prefixed in *. simpl. by rewrite <- Hw.
    + rewrite Hs. exists (c :: hd), tl. split; [done |]. simpl. by rewrite <- Hw.
Qed.

Lemma split_bytes_prefixed sep l ls :
  Forall (fun w => sep ∉ w) (l :: ls) ->
  split_bytes sep (l ++ prefixed sep ls) = l :: ls.
Proof.
  revert l. induction ls as [| l' ls IH]; intros l Hall.
  - unfold prefixed. simpl. rewrite app_nil_r. apply split_bytes_fresh.
    by inversion Hall.
  - inversion Hall as [| ? ? Hl Hrest]; subst.
    unfold prefixed. simpl. fold (prefixed sep ls).
    rewrite split_bytes_app by done. by rewrite IH.
Qed.

Lemma forallb_fresh (p : ascii -> bool) sep w :
  (forall c, p c = true -> c <> sep) -> forallb p w = true -> sep ∉ w.
Proof.
  intros Hp. induction w as [| c w IH]; simpl.
  - intros _. apply not_elem_of_nil.
  - intros [Hc Hw]%andb_true_iff. apply not_elem_of_cons. split; [| by apply IH].
    intros Heq. by apply (Hp c).
Qed.

Lemma valid_label_inner l :
  spec_valid_label l = true ->
  forallb (fun c => spec_alnum c || Ascii.eqb c "-") l = true.
Proof.
  unfold spec_valid_label. rewrite !andb_true_iff. tauto.
Qed.

Lemma valid_label_no_at l : spec_valid_label l = true -> "@"%char ∉ l.
Proof.
  intros H%valid_label_inner. eapply forallb_fresh; [| exact H]. apply inner_not_at.
Qed.

Lemma valid_label_no_dot l : spec_valid_label l = true -> "."%char ∉ l.
Proof.
  intros H%valid_label_inner. eapply forallb_fresh; [| exact H]. apply inner_not_dot.
Qed.

Lemma prefixed_no_at ls :
  forallb spec_valid_label ls = true -> "@"%char ∉ prefixed "." ls.
Proof.
  induction ls as [| l ls IH]; simpl.
  - intros _. apply not_elem_of_nil.
  - intros [Hl Hls]%andb_true_iff. unfold prefixed. simpl. fold (prefixed "." ls).
    apply not_elem_of_cons. split; [done |].
    apply not_elem_of_app. split; [by apply valid_label_no_at | by apply IH].
Qed.

End SplitFacts.

(** ** The pattern and the grammar accept the same strings *)

Section EmailGrammar.

Lemma lang_lit c w : lang (Lit c) w <-> w = [c].
Proof.
  unfold Lit. rewrite lang_class_inv. unfold in_class. simpl. split.
  - intros (c' & -> & H). rewrite orb_false_r in H. by apply Ascii.eqb_eq in H as ->.
  - intros ->. exists c. by rewrite Ascii.eqb_refl.
Qed.

Lemma lang_dotted w :
  lang (Star (Cat (Lit ".") labelRegex)) w <->
  exists ls, forallb spec_valid_label ls = true /\ w = prefixed "." ls.
Proof.
  split.
  - intros H. remember (Star (Cat (Lit ".") labelRegex)) as r eqn:Hr.
    induction H as [| | | | | | r0 w1 w2 H1 _ H2 IH2]; try discriminate.
    + by exists [].
    + injection Hr as ->. destruct (IH2 eq_refl) as (ls & Hls & ->).
      apply lang_cat_inv in H1 as (d & l & -> & ->%lang_lit & Hl%lang_label).
      exists (l :: ls). simpl. by rewrite Hl.
  - intros (ls & Hls & ->). induction ls as [| l ls IH]; [constructor |].
    simpl in Hls. apply andb_true_iff in Hls as [Hl Hls].
    unfold prefixed. simpl. fold (prefixed "." ls).
    apply (lang_star_app _ ("."%char :: l)); [| by apply IH].
    apply (lang_cat _ _ ["."%char] l); [by apply lang_lit | by apply lang_label].
Qed.

Lemma lang_email w : lang emailRegex w <-> email_shape w.
Proof.
  unfold emailRegex, email_shape. rewrite lang_cat_inv. split.
  - intros (alias & w1 & -> & [Hne Hal]%lang_plus_class & H1).
    apply lang_cat_inv in H1 as (a & w2 & -> & ->%lang_lit & H2).
    apply lang_cat_inv in H2 as (l & w3 & -> & Hl%lang_label & (ls & Hls & ->)%lang_dotted).
    exists alias, l, ls. simpl. rewrite Hl, Hls. repeat split; [done |].
    rewrite (forallb_pointwise _ (in_class local_items)); [done |].
    intros c. by rewrite local_class.
  - intros (alias & l & ls & -> & Hne & Hal & Hls).
    simpl in Hls. apply andb_true_iff in Hls as [Hl Hls].
    exists alias, ("@"%char :: l ++ prefixed "." ls). split; [done |]. split.
    + apply lang_plus_class. split; [done |].
      rewrite (forallb_pointwise _ spec_local_char); [done | apply local_class].
    + apply (lang_cat _ _ ["@"%char]); [by apply lang_lit |].
      apply lang_cat; [by apply lang_label |]. apply lang_dotted. eauto.
Qed.

(** The two [Split]s of a well-shaped email. *)
Lemma email_shape_split alias l ls :
  forallb spec_local_char alias = true ->
  forallb spec_valid_label (l :: ls) = true ->
  split_bytes "@" (alias ++ "@"%char :: l ++ prefixed "." ls) =
    [alias; l ++ prefixed "." ls] /\
  split_bytes "." (l ++ prefixed "." ls) = l :: ls.
Proof.
  intros Hal Hls. split.
  - rewrite split_bytes_app by (eapply forallb_fresh; [apply local_not_at | done]).
    rewrite split_bytes_fresh; [done |].
    simpl in Hls. apply andb_true_iff in Hls as [Hl Hls].
    apply not_elem_of_app. split; [by apply valid_label_no_at | by apply prefixed_no_at].
  - apply split_bytes_prefixed. apply Forall_forall. intros w Hw.
    apply valid_label_no_dot.
    rewrite forallb_forall in Hls. apply Hls. by apply list_elem_of_In.
Qed.

Lemma spec_valid_email_bytes raw :
  spec_valid_email raw =
  match split_bytes "@" (String.list_ascii_of_string raw) with
  | [alias; domain] =>
      negb (bool_decide (alias = [])) && forallb spec_local_char alias
      && forallb spec_valid_label (split_bytes "." domain)
  | _ => false
  end.
Proof.
  unfold spec_valid_email. rewrite Split_bytes.
  destruct (split_bytes "@" (String.list_ascii_of_string raw)) as [| a [| d [| ? ?]]];
    simpl; try done.
  rewrite Split_bytes, !String.list_ascii_of_string_of_list_ascii.
  f_equal; [f_equal |].
  - destruct a; simpl; done.
  - generalize (split_bytes "." d). intros ls.
    induction ls as [| l ls IH]; simpl; [done |].
    by rewrite IH, String.list_ascii_of_string_of_list_ascii.
Qed.

Lemma spec_valid_email_shape raw :
  spec_valid_email raw = true <-> email_shape (String.list_ascii_of_string raw).
Proof.
  rewrite spec_valid_email_bytes. set (w := String.list_ascii_of_string raw).
  unfold email_shape. split.
  - destruct (split_bytes_join "@" w) as (alias & tl & Hs & Hw). rewrite Hs.
    destruct tl as [| d [| ? ?]]; try done.
    rewrite !andb_true_iff, negb_true_iff, bool_decide_eq_false.
    intros [[Hne Hal] Hls].
    destruct (split_bytes_join "." d) as (l & ls & Hsd & Hd). rewrite Hsd in Hls.
    exists alias, l, ls. repeat split; [| done | done | done].
    rewrite Hw. unfold prefixed at 1. simpl. by rewrite app_nil_r, <- Hd.
  - intros (alias & l & ls & -> & Hne & Hal & Hls).
    destruct (email_shape_split alias l ls Hal Hls) as [-> ->].
    rewrite Hal, Hls, !andb_true_r, negb_true_iff. by apply bool_decide_eq_false.
Qed.

Lemma MatchString_emailRegex raw :
  MatchString emailRegex raw = spec_valid_email raw.
Proof.
  apply eq_true_iff_eq. unfold MatchString.
  by rewrite matches_spec, lang_email, spec_valid_email_shape.
Qed.

End EmailGrammar.

(** ** The phases of the handler *)

Section Phases.
Context {sdk : SDK}.

Lemma contains_spec arr str : contains arr str = true <-> str ∈ arr.
Proof.
  induction arr as [| el arr IH]; simpl.
  - split; [discriminate | by intros ?%elem_of_nil].
  - rewrite elem_of_cons. destruct (String.eqb_spec el str) as [-> | Hne].
    + split; auto.
    + rewrite IH. split; [auto | intros [? | ?]; [congruence | done]].
Qed.

Lemma contains_false arr str : contains arr str = false <-> str ∉ arr.
Proof.
  rewrite <- contains_spec. destruct (contains arr str); split; congruence.
Qed.

Lemma mapToAccount_loop_eq accounts accs :
  mapToAccount_loop accounts accs None = (accs ++ map account_of accounts, None).
Proof.
  revert accs. induction accounts as [| raw accounts IH]; intros accs; simpl.
  - by rewrite app_nil_r.
  - destruct (NewEmail raw) as [email emailErr] eqn:He.
    rewrite IH, <- app_assoc. simpl. unfold account_of. by rewrite He.
Qed.

(** [mapToAccount] never returns an error. *)
Lemma mapToAccount_eq accounts :
  mapToAccount accounts = (map account_of accounts, None).
Proof. unfold mapToAccount. by rewrite mapToAccount_loop_eq. Qed.

Lemma marshalMap_loop_eq accounts attrVals :
  marshalMap_loop accounts attrVals None =
  (attrVals ++ map (fun a => fst (MarshalMap a)) accounts, None).
Proof.
  revert attrVals. induction accounts as [| a accounts IH]; intros attrVals; simpl.
  - by rewrite app_nil_r.
  - destruct (MarshalMap a) as [attrVal marshalErr] eqn:Hm.
    by rewrite IH, <- app_assoc.
Qed.

Lemma marshalMapToAttributeValues_eq accounts :
  marshalMapToAttributeValues accounts = (map (fun a => fst (MarshalMap a)) accounts, None).
Proof. unfold marshalMapToAttributeValues. by rewrite marshalMap_loop_eq. Qed.

(** The reading loop leaves the table as it is, and only reads. *)
Lemma setAccountBreaches_loop_reads accounts w breachName accs :
  let w' := fst (setAccountBreaches_loop w accounts breachName accs) in
  table w' = table w /\
  exists gets, trace w' = trace w ++ gets /\ forallb is_get gets = true /\
    length gets <= length accounts /\
    outcomes w' = drop (length gets) (outcomes w).
Proof.
  revert w accs. induction accounts as [| a accounts IH]; intros w accs; simpl.
  - split; [done |]. exists []. by rewrite app_nil_r.
  - unfold svc_GetItem.
    set (w1 := {| table := table w; outcomes := tail (outcomes w);
                  trace := trace w ++ [EvGetItem (PK a) (SK a) (next_outcome w)] |}).
    assert (Hstop : table w1 = table w /\
      exists gets, trace w1 = trace w ++ gets /\ forallb is_get gets = true /\
        length gets <= S (length accounts) /\ outcomes w1 = drop (length gets) (outcomes w)).
    { split; [done |]. exists [EvGetItem (PK a) (SK a) (next_outcome w)].
      simpl. split; [done |]. split; [done |]. split; [lia |].
      by destruct (outcomes w). }
    assert (Hgo : forall accs',
      table (fst (setAccountBreaches_loop w1 accounts breachName accs')) = table w /\
      exists gets,
        trace (fst (setAccountBreaches_loop w1 accounts breachName accs')) = trace w ++ gets /\
        forallb is_get gets = true /\ length gets <= S (length accounts) /\
        outcomes (fst (setAccountBreaches_loop w1 accounts breachName accs')) =
          drop (length gets) (outcomes w)).
    { intros accs'. destruct (IH w1 accs') as (Ht & gets & Htr & Hg & Hl & Ho).
      split; [by rewrite Ht |].
      exists (EvGetItem (PK a) (SK a) (next_outcome w) :: gets).
      rewrite Htr, Ho. simpl. rewrite <- app_assoc. simpl.
      split; [done |]. split; [done |]. split; [lia |].
      destruct (outcomes w); simpl; [| done]. by rewrite drop_nil. }
    destruct (next_outcome w) as [e |]; [exact Hstop |].
    destruct (table w !! (PK a, SK a)) as [item |]; [| apply Hgo].
    destruct (UnmarshalMap item) as [existingAcc [e |]]; [exact Hstop | apply Hgo].
Qed.

(** When it ends without an error it has read every account, in order, and
    every request was served. *)
Lemma setAccountBreaches_loop_ok accounts w breachName accs w' accs' :
  setAccountBreaches_loop w accounts breachName accs = (w', (accs', None)) ->
  accs' = accs ++ map (updated (table w) breachName) accounts /\
  trace w' = trace w ++ map (fun a => EvGetItem (PK a) (SK a) None) accounts /\
  outcomes w' = drop (length accounts) (outcomes w).
Proof.
  revert w accs. induction accounts as [| a accounts IH]; intros w accs; simpl.
  - intros [= <- <-]. by rewrite !app_nil_r.
  - unfold svc_GetItem, updated at 1.
    destruct (next_outcome w) as [e |] eqn:Hno; [done |].
    assert (Hdrop : forall n, drop n (tail (outcomes w)) = drop (S n) (outcomes w)).
    { intros n. destruct (outcomes w); simpl; [by rewrite !drop_nil | done]. }
    destruct (table w !! (PK a, SK a)) as [item |].
    + destruct (UnmarshalMap item) as [existingAcc [e |]]; [done |].
      intros (-> & -> & ->)%IH. simpl. by rewrite <- !app_assoc, Hdrop.
    + intros (-> & -> & ->)%IH. simpl. by rewrite <- !app_assoc, Hdrop.
Qed.

Lemma putItems_writes items w :
  let w' := fst (putItems w items) in
  exists puts, trace w' = trace w ++ puts /\ forallb is_put puts = true /\
    length puts <= length items /\
    outcomes w' = drop (length puts) (outcomes w) /\
    exists k, table w' = put_all (table w) (take k items) /\
      (snd (putItems w items) = None -> k = length items).
Proof.
  revert w. induction items as [| i items IH]; intros w; simpl.
  - exists []. rewrite app_nil_r. repeat split; [done |]. by exists 0.
  - unfold svc_PutItem.
    assert (Hdrop : forall n, drop n (tail (outcomes w)) = drop (S n) (outcomes w)).
    { intros n. destruct (outcomes w); simpl; [by rewrite !drop_nil | done]. }
    destruct (next_outcome w) as [e |] eqn:Hno; simpl.
    + exists [EvPutItem i (Some e)]. simpl.
      split; [done |]. split; [done |]. split; [lia |]. split; [exact (Hdrop 0) |].
      by exists 0.
    + match goal with |- context [putItems ?w0 items] => pose proof (IH w0) as IHw end.
      simpl in IHw. destruct IHw as (puts & Htr & Hp & Hl & Ho & k & Ht & Hk).
      exists (EvPutItem i None :: puts). rewrite Htr, Ho. simpl.
      rewrite <- app_assoc, Hdrop.
      split; [done |]. split; [done |]. split; [lia |]. split; [done |].
      exists (S k). rewrite Ht. split; [done |]. intros H. by rewrite Hk.
Qed.

End Phases.

(** ** [NewEmail] *)

Section NewEmailFacts.

Lemma Split_nonempty s sep : Split s sep <> [].
Proof.
  induction s as [| c s IH]; simpl; [done |].
  destruct (Ascii.eqb c sep); [done |]. by destruct (Split s sep).
Qed.

Lemma Split_one s sep d : Split s sep = [d] -> s = d.
Proof.
  revert d. induction s as [| c s IH]; intros d; simpl.
  - by intros [= <-].
  - destruct (Ascii.eqb c sep).
    + intros [= _ H]. by apply Split_nonempty in H.
    + destruct (Split s sep) as [| hd tl] eqn:Hs; [by apply Split_nonempty in Hs |].
      intros [= <- ->]. by rewrite (IH hd).
Qed.

Lemma Split_two s sep a d : Split s sep = [a; d] -> s = a +:+ String sep d.
Proof.
  revert a. induction s as [| c s IH]; intros a; simpl; [done |].
  destruct (Ascii.eqb_spec c sep) as [-> | Hne].
  - intros [= <- H]. simpl. by rewrite (Split_one _ _ _ H).
  - destruct (Split s sep) as [| hd tl] eqn:Hs; [done |].
    intros [= <- ->]. simpl. by rewrite (IH hd).
Qed.

Lemma Split_length s sep : length (Split s sep) = S (count_byte sep s).
Proof.
  induction s as [| c s IH]; simpl; [done |].
  destruct (Ascii.eqb c sep); simpl; [by rewrite IH |].
  destruct (Split s sep); simpl in *; lia.
Qed.

Lemma count_byte_app c s1 s2 :
  count_byte c (s1 +:+ s2) = count_byte c s1 + count_byte c s2.
Proof. induction s1 as [| x s1 IH]; simpl; [done | rewrite IH; lia]. Qed.

Lemma spec_valid_email_Split raw :
  spec_valid_email raw = true ->
  exists alias domain,
    Split raw "@" = [alias; domain] /\
    forallb (fun l => spec_valid_label (String.list_ascii_of_string l)) (Split domain ".") = true.
Proof.
  unfold spec_valid_email.
  destruct (Split raw "@") as [| alias [| domain [| ? ?]]]; try done.
  intros [_ H]%andb_true_iff. eauto.
Qed.

(** The two indexings of [NewEmail] are in range. *)
Lemma NewEmail_index_in_range emailStr :
  MatchString emailRegex emailStr = true -> length (Split emailStr "@") = 2.
Proof.
  rewrite MatchString_emailRegex. intros (a & d & -> & _)%spec_valid_email_Split. done.
Qed.

Lemma NewEmail_invalid raw :
  spec_valid_email raw = false ->
  NewEmail raw = (mkEmail "" "", Some ("not a valid email address: " +:+ raw)).
Proof. intros H. unfold NewEmail. by rewrite MatchString_emailRegex, H. Qed.

Lemma NewEmail_valid raw :
  spec_valid_email raw = true ->
  exists alias domain,
    NewEmail raw = ({| Domain := domain; Alias := alias |}, None) /\
    raw = alias +:+ "@" +:+ domain /\
    count_byte "@" alias = 0 /\ count_byte "@" domain = 0 /\
    forallb (fun l => spec_valid_label (String.list_ascii_of_string l)) (Split domain ".") = true.
Proof.
  intros H. destruct (spec_valid_email_Split raw H) as (alias & domain & Hs & Hl).
  exists alias, domain. unfold NewEmail. rewrite MatchString_emailRegex, H, Hs. simpl.
  pose proof (Split_two _ _ _ _ Hs) as Hraw.
  pose proof (Split_length raw "@") as Hlen. rewrite Hs in Hlen.
  rewrite Hraw, count_byte_app in Hlen. simpl in Hlen.
  repeat split; [done | lia | lia | done].
Qed.

Lemma NewEmail_ok_valid raw e :
  NewEmail raw = (e, None) -> spec_valid_email raw = true.
Proof.
  unfold NewEmail. rewrite MatchString_emailRegex.
  by destruct (spec_valid_email raw).
Qed.

End NewEmailFacts.

Lemma spec_valid_label_prop l :
  spec_valid_label l = true ->
  1 <= length l <= 63 /\
  Forall (fun c => spec_alnum c = true \/ c = "-"%char) l /\
  head l <> Some "-"%char /\ last l <> Some "-"%char.
Proof.
  unfold spec_valid_label.
  rewrite !andb_true_iff, !negb_true_iff, !bool_decide_eq_false, !Nat.leb_le.
  intros ((((Hl1 & Hl2) & Hall) & Hhd) & Hlast).
  split; [lia |]. split; [| done].
  apply Forall_forall. intros c Hc. rewrite forallb_forall in Hall.
  apply list_elem_of_In, Hall, orb_true_iff in Hc as [Hc | Hc%Ascii.eqb_eq]; auto.
Qed.

(** C6. [NewEmail] returns an error for every string outside the email
    grammar (a non-empty alias of local-part bytes, an [@], labels joined by
    dots) and splits every string inside it at its only [@]: the alias is
    what stands before, the domain what stands after, and each label of the
    domain is 1 to 63 characters long, alphanumeric with hyphens only inside.
    A string with more than one [@] is rejected, and so is
    [user@-badlabel-.com]. *)
Theorem NewEmail_grammar :
  (forall raw, snd (NewEmail raw) = None <-> email_shape (String.list_ascii_of_string raw)) /\
  (forall raw, spec_valid_email raw = false ->
     NewEmail raw = (mkEmail "" "", Some ("not a valid email address: " +:+ raw))) /\
  (forall raw e, NewEmail raw = (e, None) ->
     spec_valid_email raw = true /\
     raw = Alias e +:+ "@" +:+ Domain e /\
     count_byte "@" (Alias e) = 0 /\ count_byte "@" (Domain e) = 0 /\
     Forall (fun label =>
               let l := String.list_ascii_of_string label in
               1 <= length l <= 63 /\
               Forall (fun c => spec_alnum c = true \/ c = "-"%char) l /\
               head l <> Some "-"%char /\ last l <> Some "-"%char)
            (Split (Domain e) ".")) /\
  (forall raw, 2 <= count_byte "@" raw ->
     NewEmail raw = (mkEmail "" "", Some ("not a valid email address: " +:+ raw))) /\
  NewEmail "user@-badlabel-.com" =
    (mkEmail "" "", Some "not a valid email address: user@-badlabel-.com") /\
  NewEmail "alice@example.com" = ({| Domain := "example.com"; Alias := "alice" |}, None).
Proof.
  split.
  { intros raw. rewrite <- spec_valid_email_shape. unfold NewEmail.
    rewrite MatchString_emailRegex. by destruct (spec_valid_email raw). }
  split; [exact NewEmail_invalid |]. split; [| split].
  - intros raw e He. pose proof (NewEmail_ok_valid raw e He) as Hv.
    destruct (NewEmail_valid raw Hv) as (alias & domain & He' & Hraw & Ha & Hd & Hl).
    rewrite He in He'. injection He' as ->. simpl.
    split; [done |]. split; [done |]. split; [done |]. split; [done |].
    apply Forall_forall. intros label Hin.
    rewrite forallb_forall in Hl. apply spec_valid_label_prop, Hl.
    by apply list_elem_of_In.
  - intros raw Hcount. apply NewEmail_invalid.
    destruct (spec_valid_email raw) eqn:Hv; [| done].
    destruct (NewEmail_valid raw Hv) as (alias & domain & _ & Hraw & Ha & Hd & _).
    rewrite Hraw, !count_byte_app, Ha, Hd in Hcount. simpl in Hcount. lia.
  - by vm_compute.
Qed.

(** C7. The keys of a parsed email: the partition key is [EMAIL#] followed
    by the domain, the sort key [EMAIL#] followed by the alias, where alias
    and domain are the two sides of the [@] of the raw string; for
    [bob@example.org] they are [EMAIL#example.org] and [EMAIL#bob]. *)
Theorem Email_keys :
  (forall raw e, NewEmail raw = (e, None) ->
     raw = Alias e +:+ "@" +:+ Domain e /\
     Email_PartitionKey e = "EMAIL#" +:+ Domain e /\
     Email_SortKey e = "EMAIL#" +:+ Alias e /\
     PK (account_of raw) = "EMAIL#" +:+ Domain e /\
     SK (account_of raw) = "EMAIL#" +:+ Alias e) /\
  (exists e, NewEmail "bob@example.org" = (e, None) /\
     Email_PartitionKey e = "EMAIL#example.org" /\
     Email_SortKey e = "EMAIL#bob").
Proof.
  split.
  - intros raw e He. unfold account_of. rewrite He. simpl.
    pose proof (NewEmail_ok_valid raw e He) as Hv.
    destruct (NewEmail_valid raw Hv) as (alias & domain & He' & Hraw & _).
    rewrite He in He'. injection He' as ->. done.
  - eexists. by vm_compute.
Qed.

(** ** Calls that succeed *)

Section Pipeline.
Context {sdk : SDK}.

Lemma served_S n w :
  served (S n) w ->
  next_outcome w = None /\
  forall tbl tr, served n {| table := tbl; outcomes := tail (outcomes w); trace := tr |}.
Proof.
  unfold served, next_outcome. destruct (outcomes w) as [| o os]; simpl.
  - intros _. split; [done |]. intros _ _. by rewrite take_nil.
  - intros [-> H]%Forall_cons. done.
Qed.

Lemma served_le n m w : n <= m -> served m w -> served n w.
Proof.
  unfold served. intros Hle H.
  rewrite <- (Nat.min_l n m), <- take_take by done. by apply Forall_take.
Qed.

Lemma setAccountBreaches_loop_succeeds accounts w breachName accs :
  served (length accounts) w ->
  decodable (table w) accounts ->
  snd (snd (setAccountBreaches_loop w accounts breachName accs)) = None.
Proof.
  revert w accs. induction accounts as [| a accounts IH]; intros w accs Hs Hd; simpl; [done |].
  unfold svc_GetItem. apply served_S in Hs as [-> Hs].
  assert (Hd' : decodable (table w) accounts).
  { intros a' item Ha'. apply Hd. by apply list_elem_of_further. }
  destruct (table w !! (PK a, SK a)) as [item |] eqn:Hitem.
  - pose proof (Hd a item (list_elem_of_here _ _) Hitem) as Hu.
    destruct (UnmarshalMap item) as [existingAcc unmarshalErr]. simpl in Hu. subst.
    by apply IH.
  - by apply IH.
Qed.

Lemma putItems_succeeds items w :
  served (length items) w ->
  snd (putItems w items) = None /\
  table (fst (putItems w items)) = put_all (table w) items /\
  trace (fst (putItems w items)) = trace w ++ map (fun i => EvPutItem i None) items /\
  outcomes (fst (putItems w items)) = drop (length items) (outcomes w).
Proof.
  revert w. induction items as [| i items IH]; intros w Hs; simpl.
  - by rewrite app_nil_r.
  - unfold svc_PutItem. apply served_S in Hs as [Hno Hs]. rewrite Hno.
    match goal with |- context [putItems ?w0 items] => destruct (IH w0) as (-> & -> & -> & ->) end;
      [apply Hs |].
    simpl. rewrite <- app_assoc.
    split; [done |]. split; [done |]. split; [done |].
    destruct (outcomes w); simpl; [by rewrite drop_nil | done].
Qed.

(** A call all of whose requests are served, on a table whose items decode. *)
Lemma Handler_succeeds w event :
  let n := length (Accounts event) in
  let accounts := map account_of (Accounts event) in
  let accs := map (updated (table w) (BreachName event)) accounts in
  snd (json_Marshal [("message", success_message n (BreachName event))]) = None ->
  served (2 * n) w ->
  decodable (table w) accounts ->
  Handler w event =
    ({| table := put_all (table w) (map (fun a => fst (MarshalMap a)) accs);
        outcomes := drop (2 * n) (outcomes w);
        trace := trace w ++ map get_ok accounts ++ map put_ok accs |},
     (success_response n (BreachName event), None)).
Proof.
  intros n accounts accs Hjson Hs Hd. unfold Handler.
  rewrite mapToAccount_eq. fold accounts. unfold setAccountBreaches.
  assert (Hlen : length accounts = n) by (unfold accounts; by rewrite length_map).
  assert (Hs1 : served (length accounts) w).
  { rewrite Hlen. apply (served_le _ (2 * n)); [lia | done]. }
  pose proof (setAccountBreaches_loop_succeeds accounts w (BreachName event) [] Hs1 Hd) as Hok.
  destruct (setAccountBreaches_loop_reads accounts w (BreachName event) []) as [Htbl _].
  destruct (setAccountBreaches_loop w accounts (BreachName event) [])
    as [w1 [accs1 err1]] eqn:Hloop.
  simpl in Hok, Htbl. subst err1.
  apply setAccountBreaches_loop_ok in Hloop as (-> & Htr & Ho). simpl. fold accs.
  rewrite marshalMapToAttributeValues_eq.
  set (items := map (fun a => fst (MarshalMap a)) accs).
  assert (Hla : length accs = n) by (unfold accs; by rewrite length_map).
  assert (Hli : length items = n) by (unfold items; by rewrite length_map).
  destruct (putItems_succeeds items w1) as (Hp & Ht & Htr2 & Ho2).
  { unfold served. rewrite Ho, Hlen, Hli. unfold served in Hs.
    replace (2 * n) with (n + n) in Hs by lia.
    rewrite take_drop_commute. by apply Forall_drop. }
  destruct (putItems w1 items) as [w2 failed]. simpl in Hp, Ht, Htr2, Ho2. subst failed.
  rewrite Hla. unfold success_response. unfold success_message in *.
  destruct (json_Marshal _) as [body jerr]. simpl in Hjson. subst jerr. simpl.
  f_equal. destruct w2 as [t2 o2 tr2]. simpl in Ht, Htr2, Ho2. subst t2 o2 tr2.
  f_equal.
  - by rewrite Htbl.
  - rewrite Ho, Hli, Hlen, drop_drop. f_equal. lia.
  - rewrite Htr. unfold items. rewrite map_map, <- app_assoc. done.
Qed.

End Pipeline.

(** ** What a call has done *)

Section Outcomes.
Context {sdk : SDK}.

Lemma putItems_ok items w w' :
  putItems w items = (w', None) ->
  table w' = put_all (table w) items /\
  trace w' = trace w ++ map (fun i => EvPutItem i None) items.
Proof.
  revert w. induction items as [| i items IH]; intros w; simpl.
  - intros [= <-]. by rewrite app_nil_r.
  - unfold svc_PutItem. destruct (next_outcome w) as [e |]; [done |].
    intros [-> ->]%IH. simpl. by rewrite <- app_assoc.
Qed.

(** What a call that returns no error has done. *)
Lemma Handler_ok_inv w event w' resp :
  Handler w event = (w', (resp, None)) ->
  let accounts := map account_of (Accounts event) in
  let accs := map (updated (table w) (BreachName event)) accounts in
  resp = success_response (length (Accounts event)) (BreachName event) /\
  table w' = put_all (table w) (map (fun a => fst (MarshalMap a)) accs) /\
  trace w' = trace w ++ map get_ok accounts ++ map put_ok accs.
Proof.
  intros H accounts accs. revert H. unfold Handler.
  rewrite mapToAccount_eq. fold accounts. unfold setAccountBreaches.
  destruct (setAccountBreaches_loop_reads accounts w (BreachName event) []) as [Htbl _].
  destruct (setAccountBreaches_loop w accounts (BreachName event) [])
    as [w1 [accs1 [e |]]] eqn:Hloop; [done |].
  simpl in Htbl.
  apply setAccountBreaches_loop_ok in Hloop as (-> & Htr & _). simpl. fold accs.
  rewrite marshalMapToAttributeValues_eq.
  destruct (putItems w1 _) as [w2 [[attrVal e] |]] eqn:Hput; [done |].
  apply putItems_ok in Hput as [Ht2 Htr2].
  unfold success_response, success_message.
  replace (length accs) with (length (Accounts event))
    by (unfold accs, accounts; by rewrite !length_map).
  destruct (json_Marshal _) as [body [e |]]; [done |].
  intros [= <- <-]. simpl.
  split; [done |]. split; [by rewrite Ht2, Htbl |].
  rewrite Htr2, Htr, map_map, <- app_assoc. done.
Qed.

(** The reading loop when the request for the account after [pre] fails. *)
Lemma setAccountBreaches_loop_fails pre a post w breachName accs e rest :
  outcomes w = replicate (length pre) None ++ Some e :: rest ->
  decodable (table w) pre ->
  setAccountBreaches_loop w (pre ++ a :: post) breachName accs =
    ({| table := table w; outcomes := rest;
        trace := trace w ++ map get_ok pre ++ [EvGetItem (PK a) (SK a) (Some e)] |},
     (accs ++ map (updated (table w) breachName) pre, Some e)).
Proof.
  revert w accs. induction pre as [| a0 pre IH]; intros w accs Ho Hd; simpl.
  - unfold svc_GetItem, next_outcome. rewrite Ho. simpl. by rewrite app_nil_r.
  - unfold svc_GetItem, next_outcome, updated at 1. rewrite Ho. simpl.
    assert (Hd' : decodable (table w) pre).
    { intros a' item Ha'. apply Hd. by apply list_elem_of_further. }
    destruct (table w !! (PK a0, SK a0)) as [item |] eqn:Hitem.
    + pose proof (Hd a0 item (list_elem_of_here _ _) Hitem) as Hu.
      destruct (UnmarshalMap item) as [existingAcc unmarshalErr]. simpl in Hu. subst.
      rewrite IH by done. simpl. by rewrite <- !app_assoc.
    + rewrite IH by done. simpl. by rewrite <- !app_assoc.
Qed.

End Outcomes.

(** C1. A batch with a string that fails validation is not rejected:
    [mapToAccount] returns no error on any batch, and on [alice@example.com]
    and [not-an-email] the call reads and writes a record for both strings,
    the second under the keys of the empty email, and answers 200. *)
Theorem Handler_invalid_email_is_stored :
  (forall accounts,
     snd (mapToAccount accounts) = None /\
     length (fst (mapToAccount accounts)) = length accounts) /\
  spec_valid_email "not-an-email" = false /\
  snd (NewEmail "not-an-email") = Some "not a valid email address: not-an-email" /\
  let '(w', (resp, err)) := Handler (sdk := Mem.sdk) Mem.empty_world batch_alice_bad in
  let alice := {| PK := "EMAIL#example.com"; SK := "EMAIL#alice"; Type_ := "Account";
                  Account_ := "alice@example.com"; Breaches := ["BigLeak"] |} in
  let nobody := {| PK := "EMAIL#"; SK := "EMAIL#"; Type_ := "Account";
                   Account_ := "@"; Breaches := ["BigLeak"] |} in
  err = None /\ StatusCode resp = 200 /\
  trace w' = [EvGetItem "EMAIL#example.com" "EMAIL#alice" None;
              EvGetItem "EMAIL#" "EMAIL#" None;
              EvPutItem (sdk := Mem.sdk) (Mem.AccountItem alice) None;
              EvPutItem (sdk := Mem.sdk) (Mem.AccountItem nobody) None] /\
  table w' !! ("EMAIL#example.com", "EMAIL#alice") = Some (Mem.AccountItem alice) /\
  table w' !! ("EMAIL#", "EMAIL#") = Some (Mem.AccountItem nobody).
Proof.
  split; [| vm_compute; repeat split].
  intros accounts. rewrite mapToAccount_eq. simpl. by rewrite length_map.
Qed.

(** ** Properties of the pipeline *)

Section Claims.
Context {sdk : SDK}.

(** C2 (as amended). The accounts are read in input order, all before any
    write: when the fetch for the account that follows [pre] fails, the call
    aborts with the error of the store, the accounts after it are not read,
    and no account of the batch has been written: the table is the one the
    call found. *)
Theorem read_failure_leaves_table w event pre raw post e rest :
  Accounts event = pre ++ raw :: post ->
  outcomes w = replicate (length pre) None ++ Some e :: rest ->
  decodable (table w) (map account_of pre) ->
  Handler w event =
    ({| table := table w;
        outcomes := rest;
        trace := trace w ++ map get_ok (map account_of pre)
                 ++ [EvGetItem (PK (account_of raw)) (SK (account_of raw)) (Some e)] |},
     (error_response ("Invalid email: " +:+ e), Some e)).
Proof.
  intros Hacc Ho Hd. unfold Handler. rewrite mapToAccount_eq, Hacc, map_app. simpl.
  unfold setAccountBreaches.
  rewrite (setAccountBreaches_loop_fails _ _ _ _ _ _ e rest); [done | | done].
  by rewrite length_map.
Qed.

(** C3. The breach list [setAccountBreaches] gives an account: the singleton
    of the breach name when the table has no record for it; the list of the
    record as it is when the breach name is in it; that list with the breach
    name added otherwise, whose elements are those of the record and the
    breach name. *)
Theorem merge_cases w accounts breachName w' accs :
  setAccountBreaches w accounts breachName = (w', (accs, None)) ->
  Forall2 (fun a a' =>
      PK a' = PK a /\ SK a' = SK a /\ Type_ a' = Type_ a /\ Account_ a' = Account_ a /\
      match table w !! (PK a, SK a) with
      | None => Breaches a' = [breachName]
      | Some item =>
          let existing := Breaches (fst (UnmarshalMap item)) in
          (breachName ∈ existing -> Breaches a' = existing) /\
          (breachName ∉ existing ->
             Breaches a' = existing ++ [breachName] /\
             forall x, x ∈ Breaches a' <-> x ∈ existing \/ x = breachName)
      end)
    accounts accs.
Proof.
  unfold setAccountBreaches.
  destruct (setAccountBreaches_loop w accounts breachName []) as [w1 [accs1 [e |]]] eqn:Hloop;
    [done |].
  intros [= <- <-]. apply setAccountBreaches_loop_ok in Hloop as (-> & _ & _). simpl.
  apply Forall2_fmap_r, Forall_Forall2_diag, Forall_forall. intros a _.
  unfold updated. simpl. repeat (split; [done |]).
  destruct (table w !! (PK a, SK a)) as [item |]; [| done].
  unfold merged_breaches. simpl. split.
  - intros Hin%contains_spec. by rewrite Hin.
  - intros Hnin. pose proof Hnin as Hc%contains_false. rewrite Hc. split; [done |].
    intros x. rewrite elem_of_app, list_elem_of_singleton. done.
Qed.

(** C8. When every request of the call is served and every record it finds
    decodes, the call answers 200 with the message
    [Successfully added/updated N accounts to the <breachName> breach.],
    N the number of accounts of the batch. *)
Theorem Handler_success_message w event :
  let n := length (Accounts event) in
  let message :=
    "Successfully added/updated " +:+ pretty n +:+ " accounts to the "
    +:+ BreachName event +:+ " breach." in
  snd (json_Marshal [("message", message)]) = None ->
  served (2 * n) w ->
  decodable (table w) (map account_of (Accounts event)) ->
  snd (Handler w event) =
    ({| StatusCode := 200;
        Headers := [("Content-Type", "application/json")];
        Body := fst (json_Marshal [("message", message)]);
        IsBase64Encoded := false |}, None).
Proof.
  intros n message Hjson Hs Hd. by rewrite Handler_succeeds.
Qed.

(** C9. On the empty batch the call makes no request to the store (the
    world after the call is the world before it) and answers 200 with the
    message [Successfully added/updated 0 accounts to the <breachName> breach.] *)
Theorem Handler_empty_batch w breachName :
  let message :=
    "Successfully added/updated 0 accounts to the " +:+ breachName +:+ " breach." in
  snd (json_Marshal [("message", message)]) = None ->
  Handler w {| Accounts := []; BreachName := breachName |} =
    (w, ({| StatusCode := 200;
            Headers := [("Content-Type", "application/json")];
            Body := fst (json_Marshal [("message", message)]);
            IsBase64Encoded := false |}, None)).
Proof.
  intros message Hjson. unfold Handler. simpl.
  change (success_message 0 breachName) with message.
  destruct (json_Marshal [("message", message)]) as [body jerr]. simpl in Hjson.
  by subst jerr.
Qed.

(** C10. Every read of a call comes before its first write; when a read
    fails the call makes no write, leaves the table as it found it and
    returns an error. *)
Theorem reads_precede_writes w event :
  let '(w', (resp, err)) := Handler w event in
  exists gets puts,
    trace w' = trace w ++ gets ++ puts /\
    forallb is_get gets = true /\
    forallb is_put puts = true /\
    (existsb ev_failed gets = true ->
       puts = [] /\ table w' = table w /\ StatusCode resp = 400 /\ err <> None).
Proof.
  unfold Handler. rewrite mapToAccount_eq. unfold setAccountBreaches.
  set (accounts := map account_of (Accounts event)).
  destruct (setAccountBreaches_loop_reads accounts w (BreachName event) [])
    as (Htbl & gets & Htr & Hgets & _ & _).
  destruct (setAccountBreaches_loop w accounts (BreachName event) [])
    as [w1 [accs1 [e |]]] eqn:Hloop; simpl in Htbl, Htr.
  - exists gets, []. rewrite app_nil_r. by repeat split.
  - apply setAccountBreaches_loop_ok in Hloop as (-> & Htr' & _). simpl.
    rewrite Htr in Htr'. apply app_inv_head in Htr'. subst gets.
    assert (Hnofail : existsb ev_failed
              (map (fun a => EvGetItem (PK a) (SK a) None) accounts) = true -> False).
    { clear. induction accounts as [| a l IH]; simpl; [done | exact IH]. }
    rewrite marshalMapToAttributeValues_eq.
    match goal with |- context [putItems w1 ?l] =>
      destruct (putItems_writes l w1) as (puts & Htr2 & Hputs & _);
      destruct (putItems w1 l) as [w2 failed] end.
    simpl in Htr2.
    assert (Hgoal : exists gets puts,
      trace w2 = trace w ++ gets ++ puts /\ forallb is_get gets = true /\
      forallb is_put puts = true /\ (existsb ev_failed gets = true -> False)).
    { eexists _, puts. rewrite Htr2, Htr, <- app_assoc. by repeat split. }
    destruct Hgoal as (gets & puts' & H1 & H2 & H3 & H4).
    destruct failed as [[attrVal e] |]; [| destruct (json_Marshal _) as [body [e |]]];
      exists gets, puts'; (split; [done |]); (split; [done |]); (split; [done |]);
      intros Hf; by destruct (H4 Hf).
Qed.

End Claims.

(** ** The table after a call *)

Section Tables.
Context {sdk : SDK}.

(** The table after a call: some first items of the batch have been put. *)
Lemma Handler_table w event :
  exists k, table (fst (Handler w event)) = put_all (table w) (take k (items_of (table w) event)).
Proof.
  unfold Handler. rewrite mapToAccount_eq. unfold setAccountBreaches.
  set (accounts := map account_of (Accounts event)).
  destruct (setAccountBreaches_loop_reads accounts w (BreachName event) []) as [Htbl _].
  destruct (setAccountBreaches_loop w accounts (BreachName event) [])
    as [w1 [accs1 [e |]]] eqn:Hloop; simpl in Htbl.
  - exists 0. by rewrite take_0.
  - apply setAccountBreaches_loop_ok in Hloop as (-> & _ & _). simpl.
    rewrite marshalMapToAttributeValues_eq.
    match goal with |- context [putItems w1 ?l] =>
      destruct (putItems_writes l w1) as (_ & _ & _ & _ & _ & k & Hk & _);
      destruct (putItems w1 l) as [w2 failed] end.
    simpl in Hk. exists k.
    assert (Hitems : map (fun a => fst (MarshalMap a))
                       (map (updated (table w) (BreachName event)) accounts) =
                     items_of (table w) event).
    { unfold items_of, accounts. by rewrite !map_map. }
    rewrite Hitems, Htbl in Hk.
    destruct failed as [[attrVal e] |]; [| destruct (json_Marshal _) as [body [e |]]];
      exact Hk.
Qed.

Lemma put_all_snoc tbl items i :
  put_all tbl (items ++ [i]) = <[item_key i := i]> (put_all tbl items).
Proof. unfold put_all. by rewrite foldl_app. Qed.

Lemma put_all_same tbl items :
  (forall i, i ∈ items -> tbl !! item_key i = Some i) -> put_all tbl items = tbl.
Proof.
  revert tbl. induction items as [| i items IH]; intros tbl H; simpl; [done |].
  rewrite insert_id by (apply H; apply list_elem_of_here).
  apply IH. intros j Hj. apply H. by apply list_elem_of_further.
Qed.

(** When the key of an item tells the item, the table holds every item put. *)
Lemma put_all_lookup tbl items i :
  (forall x y, x ∈ items -> y ∈ items -> item_key x = item_key y -> x = y) ->
  i ∈ items -> put_all tbl items !! item_key i = Some i.
Proof.
  induction items as [| j items IH] using rev_ind; intros Hkey Hi.
  - by apply elem_of_nil in Hi.
  - rewrite put_all_snoc.
    destruct (decide (item_key j = item_key i)) as [Heq | Hne].
    + rewrite Heq, lookup_insert_eq. f_equal. apply Hkey; [| done | done].
      apply elem_of_app. right. by apply list_elem_of_singleton.
    + rewrite lookup_insert_ne by done. apply IH.
      * intros x y Hx Hy. apply Hkey; apply elem_of_app; by left.
      * apply elem_of_app in Hi as [Hi | Hi%list_elem_of_singleton]; [done | by subst].
Qed.

End Tables.

(** ** Calls on a table of encoded accounts

    Two facts about the encoding of the SDK are used from here on: an account
    decodes from its encoding, and the key attributes of the encoding are the
    [PK] and [SK] of the account. *)

Section Laws.
Context {sdk : SDK}.
Hypothesis unmarshal_marshal : forall a, UnmarshalMap (fst (MarshalMap a)) = (a, None).
Hypothesis marshal_key : forall a, item_key (fst (MarshalMap a)) = (PK a, SK a).

Lemma account_of_key_inj raw1 raw2 :
  PK (account_of raw1) = PK (account_of raw2) ->
  SK (account_of raw1) = SK (account_of raw2) ->
  account_of raw1 = account_of raw2.
Proof.
  unfold account_of, newAccount, Email_Account, Email_PartitionKey, Email_SortKey. simpl.
  destruct (fst (NewEmail raw1)) as [d1 a1], (fst (NewEmail raw2)) as [d2 a2]. simpl.
  intros H1%String.app_inj H2%String.app_inj. by subst.
Qed.

Lemma account_of_shape raw :
  Type_ (account_of raw) = "Account" /\
  exists alias domain,
    PK (account_of raw) = "EMAIL#" +:+ domain /\ SK (account_of raw) = "EMAIL#" +:+ alias /\
    Account_ (account_of raw) = alias +:+ "@" +:+ domain.
Proof. split; [done |]. by exists (Alias (fst (NewEmail raw))), (Domain (fst (NewEmail raw))). Qed.

Lemma merged_breaches_has existing breachName :
  breachName ∈ merged_breaches existing breachName.
Proof.
  unfold merged_breaches. destruct (contains existing breachName) eqn:Hc.
  - by apply contains_spec.
  - apply elem_of_app. right. by apply list_elem_of_singleton.
Qed.

Lemma merged_breaches_NoDup existing breachName :
  NoDup existing -> NoDup (merged_breaches existing breachName).
Proof.
  intros Hnd. unfold merged_breaches. destruct (contains existing breachName) eqn:Hc; [done |].
  apply NoDup_app. split; [done |]. split; [| apply NoDup_singleton].
  intros x Hx ->%list_elem_of_singleton. by apply contains_false in Hc.
Qed.

Lemma updated_has tbl breachName a : breachName ∈ Breaches (updated tbl breachName a).
Proof.
  unfold updated. simpl. destruct (tbl !! (PK a, SK a)).
  - apply merged_breaches_has.
  - by apply list_elem_of_singleton.
Qed.

Lemma items_of_key tbl event x y :
  x ∈ items_of tbl event -> y ∈ items_of tbl event -> item_key x = item_key y -> x = y.
Proof.
  unfold items_of. intros (r1 & -> & _)%list_elem_of_fmap (r2 & -> & _)%list_elem_of_fmap.
  rewrite !marshal_key. unfold updated at 1 2 3 4. simpl. intros Heq.
  by rewrite (account_of_key_inj r1 r2 (f_equal fst Heq) (f_equal snd Heq)).
Qed.

(** After a call that returned no error the table holds, for each raw email
    of the batch, the encoding of its updated account. *)
Lemma Handler_ok_lookup w event w1 resp raw :
  Handler w event = (w1, (resp, None)) ->
  raw ∈ Accounts event ->
  table w1 !! (PK (account_of raw), SK (account_of raw)) =
    Some (fst (MarshalMap (updated (table w) (BreachName event) (account_of raw)))).
Proof.
  intros (_ & Ht & _)%Handler_ok_inv Hraw. rewrite Ht, map_map, map_map.
  fold (items_of (table w) event).
  set (u := updated (table w) (BreachName event) (account_of raw)).
  change (PK (account_of raw), SK (account_of raw)) with (PK u, SK u).
  rewrite <- marshal_key. apply put_all_lookup; [apply items_of_key |].
  unfold items_of. apply list_elem_of_fmap. by exists raw.
Qed.

Lemma updated_again w event w1 resp raw :
  Handler w event = (w1, (resp, None)) ->
  raw ∈ Accounts event ->
  updated (table w1) (BreachName event) (account_of raw) =
  updated (table w) (BreachName event) (account_of raw).
Proof.
  intros H Hraw. unfold updated at 1.
  rewrite (Handler_ok_lookup _ _ _ _ _ H Hraw), unmarshal_marshal.
  pose proof (updated_has (table w) (BreachName event) (account_of raw)) as Hin.
  apply contains_spec in Hin.
  set (u := updated (table w) (BreachName event) (account_of raw)) in *.
  cbn [fst]. unfold merged_breaches. rewrite Hin. done.
Qed.

(** C4. A call that returned no error, made again on the table it left,
    leaves that table as it is whatever the second call returns: for every
    account of the batch the stored breach list is the same after the second
    call as after the first, and the breach name is in it. *)
Theorem Handler_idempotent w event :
  snd (snd (Handler w event)) = None ->
  let w1 := fst (Handler w event) in
  let w2 := fst (Handler w1 event) in
  table w2 = table w1 /\
  forall raw, raw ∈ Accounts event ->
    exists breaches,
      stored_breaches (table w1) raw = Some breaches /\
      stored_breaches (table w2) raw = Some breaches /\
      BreachName event ∈ breaches.
Proof.
  destruct (Handler w event) as [w1 [resp err]] eqn:H1. simpl. intros ->.
  assert (Hsame : items_of (table w1) event = items_of (table w) event).
  { unfold items_of. apply map_ext_in. intros raw Hraw%list_elem_of_In.
    by rewrite (updated_again _ _ _ _ _ H1 Hraw). }
  assert (Htable : table (fst (Handler w1 event)) = table w1).
  { destruct (Handler_table w1 event) as [k ->]. rewrite Hsame.
    apply put_all_same. intros i Hi.
    assert (Hi' : i ∈ items_of (table w) event).
    { by apply (subseteq_take k). }
    pose proof Hi' as (raw & -> & Hraw)%list_elem_of_fmap.
    rewrite marshal_key. apply (Handler_ok_lookup _ _ _ _ _ H1 Hraw). }
  split; [done |]. intros raw Hraw. rewrite Htable. unfold stored_breaches.
  rewrite (Handler_ok_lookup _ _ _ _ _ H1 Hraw), unmarshal_marshal. cbn [fst].
  eexists. split; [done |]. split; [done |]. apply updated_has.
Qed.

Lemma putItems_put_of items w :
  exists puts, trace (fst (putItems w items)) = trace w ++ puts /\
    Forall (put_of items) puts.
Proof.
  revert w. induction items as [| i items IH]; intros w; simpl.
  - exists []. by rewrite app_nil_r.
  - assert (Hmono : forall puts, Forall (put_of items) puts -> Forall (put_of (i :: items)) puts).
    { intros puts H. eapply Forall_impl; [exact H |].
      intros [pk sk o | j o]; simpl; [done |]. apply list_elem_of_further. }
    unfold svc_PutItem. destruct (next_outcome w) as [e |]; simpl.
    + exists [EvPutItem i (Some e)]. split; [done |].
      apply Forall_singleton. simpl. apply list_elem_of_here.
    + match goal with |- context [putItems ?w0 items] =>
        destruct (IH w0) as (puts & -> & Hputs) end.
      exists (EvPutItem i None :: puts). simpl. rewrite <- app_assoc. split; [done |].
      apply Forall_cons. split; [apply list_elem_of_here | by apply Hmono].
Qed.

(** The requests of a call: reads, then writes of items of the batch. *)
Lemma Handler_requests w event :
  exists reqs, trace (fst (Handler w event)) = trace w ++ reqs /\
    Forall (put_of (items_of (table w) event)) reqs.
Proof.
  unfold Handler. rewrite mapToAccount_eq. unfold setAccountBreaches.
  set (accounts := map account_of (Accounts event)).
  destruct (setAccountBreaches_loop_reads accounts w (BreachName event) [])
    as (_ & gets & Htr & Hgets & _ & _).
  assert (Hg : Forall (put_of (items_of (table w) event)) gets).
  { apply Forall_forall. intros [pk sk o | j o] Hin; simpl; [done |].
    rewrite forallb_forall in Hgets. by apply list_elem_of_In, Hgets in Hin. }
  destruct (setAccountBreaches_loop w accounts (BreachName event) [])
    as [w1 [accs1 [e |]]] eqn:Hloop; simpl in Htr.
  - by exists gets.
  - apply setAccountBreaches_loop_ok in Hloop as (-> & _ & _). simpl.
    rewrite marshalMapToAttributeValues_eq.
    assert (Hitems : map (fun a => fst (MarshalMap a))
                       (map (updated (table w) (BreachName event)) accounts) =
                     items_of (table w) event).
    { unfold items_of, accounts. by rewrite !map_map. }
    rewrite Hitems.
    destruct (putItems_put_of (items_of (table w) event) w1) as (puts & Htr2 & Hp).
    destruct (putItems w1 _) as [w2 failed]. simpl in Htr2.
    assert (Hgoal : exists reqs, trace w2 = trace w ++ reqs /\
              Forall (put_of (items_of (table w) event)) reqs).
    { exists (gets ++ puts). rewrite Htr2, Htr, <- app_assoc. split; [done |].
      by apply Forall_app. }
    destruct failed as [[attrVal e] |]; [| destruct (json_Marshal _) as [body [e |]]];
      exact Hgoal.
Qed.

Lemma updated_well_formed tbl breachName raw :
  table_inv tbl -> well_formed (updated tbl breachName (account_of raw)).
Proof.
  intros Hinv. destruct (account_of_shape raw) as [Hty Hkeys].
  split; [done |]. split; [done |].
  unfold updated. cbn [Breaches with_Breaches].
  destruct (tbl !! (PK (account_of raw), SK (account_of raw))) as [item |] eqn:Hitem.
  - destruct (Hinv _ _ Hitem) as (a & -> & _ & _ & _ & Hnd). cbn [fst].
    by apply merged_breaches_NoDup.
  - apply NoDup_singleton.
Qed.

Lemma items_of_well_formed tbl event i :
  table_inv tbl -> i ∈ items_of tbl event ->
  exists a, i = fst (MarshalMap a) /\ well_formed a.
Proof.
  intros Hinv (raw & -> & _)%list_elem_of_fmap.
  eexists. split; [done |]. by apply updated_well_formed.
Qed.

Lemma put_all_inv tbl items :
  table_inv tbl ->
  (forall i, i ∈ items -> exists a, i = fst (MarshalMap a) /\ well_formed a) ->
  table_inv (put_all tbl items).
Proof.
  revert tbl. induction items as [| i items IH]; intros tbl Hinv Hitems; simpl; [done |].
  apply IH; [| intros j Hj; apply Hitems; by apply list_elem_of_further].
  destruct (Hitems i (list_elem_of_here _ _)) as (a & -> & Hwf).
  intros k item. rewrite lookup_insert. case_decide as Hk.
  - intros [= <-]. exists a. by rewrite unmarshal_marshal, <- Hk, marshal_key.
  - apply Hinv.
Qed.

(** C5. Every record a call writes is well formed: its type is [Account],
    its account string is alias, [@], domain for the alias and domain of its
    keys, and no breach name is twice in its breach list; so a table of
    well-formed records is still one after the call, whatever the call
    returns. *)
Theorem Handler_keeps_records_well_formed w event :
  table_inv (table w) ->
  let w' := fst (Handler w event) in
  table_inv (table w') /\
  forall item o, EvPutItem item o ∈ drop (length (trace w)) (trace w') ->
    exists a, item = fst (MarshalMap a) /\ UnmarshalMap item = (a, None) /\
      Type_ a = "Account" /\
      (exists alias domain,
         PK a = "EMAIL#" +:+ domain /\ SK a = "EMAIL#" +:+ alias /\
         Account_ a = alias +:+ "@" +:+ domain) /\
      NoDup (Breaches a).
Proof.
  intros Hinv. split.
  - destruct (Handler_table w event) as [k ->]. apply put_all_inv; [done |].
    intros i Hi%(subseteq_take k). by apply (items_of_well_formed (table w) event).
  - intros item o Hin. destruct (Handler_requests w event) as (reqs & Htr & Hreqs).
    rewrite Htr, drop_app_length in Hin.
    rewrite Forall_forall in Hreqs. apply Hreqs in Hin. simpl in Hin.
    destruct (items_of_well_formed _ _ _ Hinv Hin) as (a & -> & Hwf).
    exists a. by rewrite unmarshal_marshal.
Qed.

Lemma run_well_formed w events :
  table (w) = ∅ -> table_inv (table (run w events)).
Proof.
  intros Hempty. assert (Hinv : table_inv (table w)).
  { intros k item. by rewrite Hempty, lookup_empty. }
  clear Hempty. revert w Hinv. induction events as [| event rest IH]; intros w Hinv; simpl.
  - done.
  - apply IH. destruct (Handler_table w event) as [k ->]. apply put_all_inv; [done |].
    intros i Hi%(subseteq_take k). by apply (items_of_well_formed (table w) event).
Qed.

End Laws.

(** * Further properties of the code *)

(** ** Parsing and keys *)

Section Keys.

Lemma local_char_printable c :
  spec_local_char c = true -> 33 <= nat_of_ascii c <= 126.
Proof.
  destruct c as [[] [] [] [] [] [] [] []]; vm_compute; intros H;
    first [discriminate H | split; lia].
Qed.

Lemma inner_char_printable c :
  spec_alnum c || Ascii.eqb c "-" = true -> 33 <= nat_of_ascii c <= 126.
Proof.
  destruct c as [[] [] [] [] [] [] [] []]; vm_compute; intros H;
    first [discriminate H | split; lia].
Qed.

Lemma forallb_Forall_impl {A} (p : A -> bool) (P : A -> Prop) (l : list A) :
  (forall x, p x = true -> P x) -> forallb p l = true -> Forall P l.
Proof.
  intros Hp. induction l as [| x l IH]; simpl; [constructor |].
  intros [Hx Hl]%andb_true_iff. constructor; auto.
Qed.

Lemma prefixed_printable ls :
  forallb spec_valid_label ls = true ->
  Forall (fun c => 33 <= nat_of_ascii c <= 126) (prefixed "." ls).
Proof.
  induction ls as [| l ls IH]; simpl; [constructor |].
  intros [Hl Hls]%andb_true_iff. unfold prefixed. simpl. fold (prefixed "." ls).
  constructor; [vm_compute; lia |]. apply Forall_app. split; [| by apply IH].
  eapply forallb_Forall_impl; [apply inner_char_printable | by apply valid_label_inner].
Qed.

(** [NewEmail] accepts only strings of printable ASCII bytes: no blank, no
    control byte, no byte above 126. *)
Theorem NewEmail_accepts_printable_ascii raw e :
  NewEmail raw = (e, None) ->
  Forall (fun c => 33 <= nat_of_ascii c <= 126) (String.list_ascii_of_string raw).
Proof.
  intros Hv%NewEmail_ok_valid.
  apply spec_valid_email_shape in Hv as (alias & l & ls & -> & _ & Hal & Hls).
  simpl in Hls. apply andb_true_iff in Hls as [Hl Hls].
  apply Forall_app. split.
  - eapply forallb_Forall_impl; [apply local_char_printable | done].
  - constructor; [vm_compute; lia |]. apply Forall_app. split; [| by apply prefixed_printable].
    eapply forallb_Forall_impl; [apply inner_char_printable | by apply valid_label_inner].
Qed.

(** Two accepted emails with the same partition and sort keys are the same
    string: accepted emails do not share a record. *)
Theorem accepted_emails_have_distinct_keys raw1 raw2 e1 e2 :
  NewEmail raw1 = (e1, None) ->
  NewEmail raw2 = (e2, None) ->
  Email_PartitionKey e1 = Email_PartitionKey e2 ->
  Email_SortKey e1 = Email_SortKey e2 ->
  raw1 = raw2.
Proof.
  intros H1 H2 Hpk%String.app_inj Hsk%String.app_inj.
  pose proof (NewEmail_ok_valid _ _ H1) as Hv1.
  pose proof (NewEmail_ok_valid _ _ H2) as Hv2.
  destruct (NewEmail_valid raw1 Hv1) as (a1 & d1 & He1 & -> & _).
  destruct (NewEmail_valid raw2 Hv2) as (a2 & d2 & He2 & -> & _).
  rewrite H1 in He1. rewrite H2 in He2.
  injection He1 as ->. injection He2 as ->. simpl in Hpk, Hsk. by subst.
Qed.

(** Every rejected string is given the account of the empty email, with keys
    [EMAIL#] and [EMAIL#] and account string [@]; no accepted email has these
    keys. *)
Theorem rejected_strings_share_one_account :
  (forall raw, snd (NewEmail raw) <> None ->
     account_of raw =
       {| PK := "EMAIL#"; SK := "EMAIL#"; Type_ := "Account"; Account_ := "@";
          Breaches := [] |}) /\
  (forall raw e, NewEmail raw = (e, None) ->
     PK (account_of raw) <> "EMAIL#" /\ SK (account_of raw) <> "EMAIL#").
Proof.
  split.
  - intros raw Herr. unfold account_of, NewEmail in *.
    by destruct (negb (MatchString emailRegex raw)).
  - intros raw e He. pose proof (NewEmail_ok_valid _ _ He) as Hv.
    pose proof Hv as (alias & l & ls & Hw & Hne & _ & Hls)%spec_valid_email_shape.
    destruct (NewEmail_valid raw Hv) as (a & d & He' & Hraw & _ & _ & Hd).
    unfold account_of. rewrite He'. simpl. split.
    + intros Hd0. assert (Hd1 : d = "") by exact (String.app_inj "EMAIL#" d "" Hd0).
      subst d. by vm_compute in Hd.
    + intros Ha0. assert (Ha1 : a = "") by exact (String.app_inj "EMAIL#" a "" Ha0).
      subst a. rewrite Hraw in Hv. revert Hv. unfold spec_valid_email.
      simpl. by destruct (Split _ "@") as [| ? [| ? ?]].
Qed.

End Keys.

(** ** The breach list *)

Section BreachLists.

(** [contains] answers true exactly when the string stands at some index of
    the slice. *)
Theorem contains_finds_index arr str :
  contains arr str = true <-> exists i, arr !! i = Some str.
Proof. by rewrite contains_spec, list_elem_of_lookup. Qed.

Lemma elem_of_merged_breaches existing breachName x :
  x ∈ merged_breaches existing breachName <-> x ∈ existing \/ x = breachName.
Proof.
  unfold merged_breaches. destruct (contains existing breachName) eqn:Hc.
  - apply contains_spec in Hc. split; [by left | intros [? | ->]; done].
  - by rewrite elem_of_app, list_elem_of_singleton.
Qed.

(** Adding a breach name keeps the list it is added to as a prefix; adding it
    a second time changes nothing; and adding two names in either order gives
    lists with the same elements. *)
Theorem merged_breaches_compose existing b1 b2 :
  existing `prefix_of` merged_breaches existing b1 /\
  merged_breaches (merged_breaches existing b1) b1 = merged_breaches existing b1 /\
  (forall x, x ∈ merged_breaches (merged_breaches existing b1) b2 <->
             x ∈ merged_breaches (merged_breaches existing b2) b1).
Proof.
  split; [| split].
  - unfold merged_breaches. destruct (contains existing b1); [done |].
    by apply prefix_app_r.
  - unfold merged_breaches at 1.
    assert (H : b1 ∈ merged_breaches existing b1) by (apply elem_of_merged_breaches; by right).
    apply contains_spec in H. by rewrite H.
  - intros x. rewrite !elem_of_merged_breaches. tauto.
Qed.

End BreachLists.

(** ** Requests, failures and responses *)

Section Requests.
Context {sdk : SDK}.

(** [marshalMapToAttributeValues] gives one attribute map per account, in
    order, and never an error, whatever [MarshalMap] reports. *)
Theorem marshal_errors_are_dropped accounts :
  snd (marshalMapToAttributeValues accounts) = None /\
  Forall2 (fun a attrVal => attrVal = fst (MarshalMap a))
          accounts (fst (marshalMapToAttributeValues accounts)).
Proof.
  rewrite marshalMapToAttributeValues_eq. split; [done |]. simpl.
  apply Forall2_fmap_r, Forall_Forall2_diag, Forall_forall. done.
Qed.

(** The response says 200 exactly when the call returns no error, and 400,
    with no header, when it returns one. *)
Theorem Handler_status_matches_error w event :
  match snd (Handler w event) with
  | (resp, None) =>
      StatusCode resp = 200 /\ Headers resp = [("Content-Type", "application/json")]
  | (resp, Some _) => StatusCode resp = 400 /\ Headers resp = []
  end.
Proof.
  unfold Handler. rewrite mapToAccount_eq.
  destruct (setAccountBreaches w _ _) as [w1 [accounts [e |]]]; [done |].
  rewrite marshalMapToAttributeValues_eq.
  destruct (putItems w1 _) as [w2 [[attrVal e] |]]; [done |].
  by destruct (json_Marshal _) as [body [e |]].
Qed.

Lemma setAccountBreaches_loop_gets accounts w breachName accs :
  exists gets,
    trace (fst (setAccountBreaches_loop w accounts breachName accs)) = trace w ++ gets /\
    Forall2 get_for (take (length gets) accounts) gets.
Proof.
  revert w accs. induction accounts as [| a accounts IH]; intros w accs; simpl.
  - exists []. by rewrite app_nil_r.
  - unfold svc_GetItem.
    set (ev := EvGetItem (PK a) (SK a) (next_outcome w)).
    set (w1 := {| table := table w; outcomes := tail (outcomes w); trace := trace w ++ [ev] |}).
    assert (Hev : get_for a ev) by by eexists.
    assert (Hstop : exists gets, trace w1 = trace w ++ gets /\
                      Forall2 get_for (take (length gets) (a :: accounts)) gets).
    { exists [ev]. split; [done |]. simpl. rewrite take_0. by repeat constructor. }
    assert (Hgo : forall accs', exists gets,
              trace (fst (setAccountBreaches_loop w1 accounts breachName accs')) =
                trace w ++ gets /\
              Forall2 get_for (take (length gets) (a :: accounts)) gets).
    { intros accs'. destruct (IH w1 accs') as (gets & -> & Hg).
      exists (ev :: gets). simpl. rewrite <- app_assoc. split; [done |]. by constructor. }
    destruct (next_outcome w) as [e |]; [exact Hstop |].
    destruct (table w !! (PK a, SK a)) as [item |]; [| apply Hgo].
    destruct (UnmarshalMap item) as [existingAcc [e |]]; [exact Hstop | apply Hgo].
Qed.

Lemma putItems_puts items w :
  exists puts,
    trace (fst (putItems w items)) = trace w ++ puts /\
    Forall2 put_for (take (length puts) items) puts.
Proof.
  revert w. induction items as [| i items IH]; intros w; simpl.
  - exists []. by rewrite app_nil_r.
  - unfold svc_PutItem. destruct (next_outcome w) as [e |]; simpl.
    + exists [EvPutItem i (Some e)]. split; [done |]. simpl. rewrite take_0.
      repeat constructor. by eexists.
    + match goal with |- context [putItems ?w0 items] =>
        destruct (IH w0) as (puts & -> & Hp) end.
      exists (EvPutItem i None :: puts). simpl. rewrite <- app_assoc. split; [done |].
      constructor; [by eexists | done].
Qed.

(** A call asks for the accounts of the batch one after the other in input
    order, each at most once, then puts their items in the same order, each at
    most once; a call that returns no error has asked for and put every
    account. *)
Theorem Handler_requests_follow_input_order w event :
  let accounts := map account_of (Accounts event) in
  let items := items_of (table w) event in
  let n := length (Accounts event) in
  exists gets puts,
    trace (fst (Handler w event)) = trace w ++ gets ++ puts /\
    Forall2 get_for (take (length gets) accounts) gets /\
    Forall2 put_for (take (length puts) items) puts /\
    (snd (snd (Handler w event)) = None -> length gets = n /\ length puts = n).
Proof.
  intros accounts items n.
  assert (Hitems : map (fun a => fst (MarshalMap a))
                     (map (updated (table w) (BreachName event)) accounts) = items).
  { unfold items, items_of, accounts. by rewrite !map_map. }
  destruct (Handler w event) as [w' [resp [e |]]] eqn:HH; simpl.
  - revert HH. unfold Handler. rewrite mapToAccount_eq. unfold setAccountBreaches.
    fold accounts.
    destruct (setAccountBreaches_loop_gets accounts w (BreachName event) []) as (gets & Htr & Hg).
    destruct (setAccountBreaches_loop w accounts (BreachName event) [])
      as [w1 [accs1 [e1 |]]] eqn:Hloop; simpl in Htr.
    + intros [= <- _ _]. exists gets, []. rewrite app_nil_r. by repeat split.
    + apply setAccountBreaches_loop_ok in Hloop as (-> & _ & _). simpl.
      rewrite marshalMapToAttributeValues_eq, Hitems.
      destruct (putItems_puts items w1) as (puts & Htr2 & Hp).
      destruct (putItems w1 items) as [w2 [[attrVal e2] |]]; simpl in Htr2.
      * intros [= <- _ _]. exists gets, puts. by rewrite Htr2, Htr, <- app_assoc.
      * destruct (json_Marshal _) as [body [e3 |]]; [| done].
        intros [= <- _ _]. exists gets, puts. by rewrite Htr2, Htr, <- app_assoc.
  - apply Handler_ok_inv in HH as (_ & _ & Htr). fold accounts in Htr.
    exists (map get_ok accounts),
           (map put_ok (map (updated (table w) (BreachName event)) accounts)).
    rewrite !length_map. split; [done |].
    assert (Hn : length accounts = n) by (unfold accounts; by rewrite length_map).
    assert (Hni : length items = n) by (unfold items, items_of; by rewrite length_map).
    rewrite <- Hn at 1. rewrite firstn_all.
    split; [| split; [| by rewrite Hn]].
    + apply Forall2_fmap_r, Forall_Forall2_diag, Forall_forall. intros a _. by eexists.
    + rewrite Hn, <- Hni, firstn_all, <- Hitems.
      apply Forall2_fmap, Forall_Forall2_diag, Forall_forall. intros a _. by eexists.
Qed.

Lemma putItems_fails pre i post w e rest :
  outcomes w = replicate (length pre) None ++ Some e :: rest ->
  putItems w (pre ++ i :: post) =
    ({| table := put_all (table w) pre;
        outcomes := rest;
        trace := trace w ++ map (fun j => EvPutItem j None) pre ++ [EvPutItem i (Some e)] |},
     Some (i, e)).
Proof.
  revert w. induction pre as [| j pre IH]; intros w Ho; simpl.
  - unfold svc_PutItem, next_outcome. by rewrite Ho.
  - unfold svc_PutItem, next_outcome. rewrite Ho. simpl.
    rewrite IH by done. simpl. by rewrite <- app_assoc.
Qed.

(** When the write of the account that follows [pre] fails, after every read
    was served, the call returns the error of the store with status 400; the
    records of the accounts of [pre] stay written, and the accounts after the
    failing one are not written. *)
Theorem write_failure_keeps_earlier_writes w event pre raw post e rest :
  let n := length (Accounts event) in
  let upd := fun r => updated (table w) (BreachName event) (account_of r) in
  let item := fst (MarshalMap (upd raw)) in
  Accounts event = pre ++ raw :: post ->
  outcomes w = replicate (n + length pre) None ++ Some e :: rest ->
  decodable (table w) (map account_of (Accounts event)) ->
  Handler w event =
    ({| table := put_all (table w) (map (fun r => fst (MarshalMap (upd r))) pre);
        outcomes := rest;
        trace := trace w ++ map (fun r => get_ok (account_of r)) (Accounts event)
                 ++ map (fun r => put_ok (upd r)) pre ++ [EvPutItem item (Some e)] |},
     (error_response ("Error adding Account " +:+ show_PutItemInput item tableName
                      +:+ " to breach: " +:+ e), Some e)).
Proof.
  intros n upd item Hacc Ho Hd. unfold Handler. rewrite mapToAccount_eq.
  set (accounts := map account_of (Accounts event)) in *.
  assert (Hlen : length accounts = n) by (unfold accounts; by rewrite length_map).
  assert (Hs : served (length accounts) w).
  { unfold served. rewrite Ho, Hlen, take_app_le by (rewrite length_replicate; lia).
    apply Forall_take, Forall_forall. by intros o [-> _]%elem_of_replicate. }
  unfold setAccountBreaches.
  pose proof (setAccountBreaches_loop_succeeds accounts w (BreachName event) [] Hs Hd) as Hok.
  destruct (setAccountBreaches_loop_reads accounts w (BreachName event) []) as [Htbl _].
  destruct (setAccountBreaches_loop w accounts (BreachName event) [])
    as [w1 [accs1 err1]] eqn:Hloop.
  simpl in Hok, Htbl. subst err1.
  apply setAccountBreaches_loop_ok in Hloop as (-> & Htr & Ho1). simpl.
  rewrite marshalMapToAttributeValues_eq.
  assert (Hitems : map (fun a => fst (MarshalMap a))
                     (map (updated (table w) (BreachName event)) accounts) =
                   map (fun r => fst (MarshalMap (upd r))) pre ++ item
                     :: map (fun r => fst (MarshalMap (upd r))) post).
  { unfold accounts. rewrite Hacc, !map_map, map_app. done. }
  rewrite Hitems.
  rewrite (putItems_fails _ _ _ w1 e rest).
  - simpl. rewrite Htbl, Htr. f_equal. f_equal.
    unfold accounts. rewrite !map_map, <- !app_assoc. done.
  - rewrite Ho1, Ho, Hlen, length_map, replicate_add, <- app_assoc.
    rewrite drop_app_length' by (by rewrite length_replicate). done.
Qed.

Lemma setAccountBreaches_loop_undecodable pre a post w breachName accs item e :
  served (S (length pre)) w ->
  decodable (table w) pre ->
  table w !! (PK a, SK a) = Some item ->
  snd (UnmarshalMap item) = Some e ->
  setAccountBreaches_loop w (pre ++ a :: post) breachName accs =
    ({| table := table w;
        outcomes := drop (S (length pre)) (outcomes w);
        trace := trace w ++ map get_ok pre ++ [get_ok a] |},
     (accs ++ map (updated (table w) breachName) pre, Some e)).
Proof.
  revert w accs. induction pre as [| a0 pre IH]; intros w accs Hs Hd Hitem He; simpl.
  - unfold svc_GetItem. apply served_S in Hs as [Hno _]. rewrite Hno, Hitem.
    destruct (UnmarshalMap item) as [existingAcc unmarshalErr]. simpl in He. subst.
    rewrite app_nil_r. unfold get_ok. by destruct (outcomes w).
  - unfold svc_GetItem, updated at 1. apply served_S in Hs as [Hno Hs]. rewrite Hno.
    assert (Hd' : decodable (table w) pre).
    { intros a' item' Ha'. apply Hd. by apply list_elem_of_further. }
    assert (Hdrop : forall n, drop n (tail (outcomes w)) = drop (S n) (outcomes w)).
    { intros k. destruct (outcomes w); simpl; [by rewrite !drop_nil | done]. }
    destruct (table w !! (PK a0, SK a0)) as [item0 |] eqn:Hitem0.
    + pose proof (Hd a0 item0 (list_elem_of_here _ _) Hitem0) as Hu.
      destruct (UnmarshalMap item0) as [existingAcc unmarshalErr]. simpl in Hu. subst.
      rewrite (IH _ _ (Hs _ _) Hd' Hitem He). simpl. by rewrite <- !app_assoc, Hdrop.
    + rewrite (IH _ _ (Hs _ _) Hd' Hitem He). simpl. by rewrite <- !app_assoc, Hdrop.
Qed.

(** When the record found for the account that follows [pre] does not decode
    to an account, the call returns the decoding error with status 400, has
    read the accounts up to that one, reads no account after it and writes
    nothing. *)
Theorem undecodable_record_aborts_call w event pre raw post item e :
  Accounts event = pre ++ raw :: post ->
  served (S (length pre)) w ->
  decodable (table w) (map account_of pre) ->
  table w !! (PK (account_of raw), SK (account_of raw)) = Some item ->
  snd (UnmarshalMap item) = Some e ->
  Handler w event =
    ({| table := table w;
        outcomes := drop (S (length pre)) (outcomes w);
        trace := trace w ++ map get_ok (map account_of pre) ++ [get_ok (account_of raw)] |},
     (error_response ("Invalid email: " +:+ e), Some e)).
Proof.
  intros Hacc Hs Hd Hitem He. unfold Handler. rewrite mapToAccount_eq, Hacc, map_app. simpl.
  unfold setAccountBreaches.
  rewrite (setAccountBreaches_loop_undecodable _ _ _ _ _ _ item e);
    [by rewrite length_map | by rewrite length_map | done | done | done].
Qed.

End Requests.

(** ** The table across calls *)

Section Stored.
Context {sdk : SDK}.
Hypothesis unmarshal_marshal : forall a, UnmarshalMap (fst (MarshalMap a)) = (a, None).
Hypothesis marshal_key : forall a, item_key (fst (MarshalMap a)) = (PK a, SK a).

(** What the table holds under a key after items have been put: what it held
    when no item has the key, an item with the key otherwise. *)
Lemma put_all_lookup_cases (tbl : gmap (string * string) Item) items k :
  (Forall (fun i => item_key i <> k) items /\ put_all tbl items !! k = tbl !! k) \/
  (exists i, i ∈ items /\ item_key i = k /\ put_all tbl items !! k = Some i).
Proof.
  induction items as [| j items IH] using rev_ind; [by left |].
  rewrite put_all_snoc. destruct (decide (item_key j = k)) as [Heq | Hne].
  - right. exists j. rewrite <- Heq, lookup_insert_eq. split; [| done].
    apply elem_of_app. right. by apply list_elem_of_singleton.
  - rewrite lookup_insert_ne by done. destruct IH as [[Hall Hl] | (i & Hi & Hk & Hl)].
    + left. split; [| done]. apply Forall_app. split; [done |]. by apply Forall_singleton.
    + right. exists i. split; [| done]. apply elem_of_app. by left.
Qed.

Lemma items_of_elem tbl event i :
  i ∈ items_of tbl event ->
  exists raw, raw ∈ Accounts event /\
    i = fst (MarshalMap (updated tbl (BreachName event) (account_of raw))) /\
    item_key i = (PK (account_of raw), SK (account_of raw)).
Proof.
  intros (raw & -> & Hraw)%list_elem_of_fmap. exists raw. by rewrite marshal_key.
Qed.

(** A call leaves alone every record whose keys are not those of an account
    of the batch, whatever it returns. *)
Theorem Handler_leaves_other_records w event k :
  (forall raw, raw ∈ Accounts event -> (PK (account_of raw), SK (account_of raw)) <> k) ->
  table (fst (Handler w event)) !! k = table w !! k.
Proof.
  intros Hk. destruct (Handler_table w event) as [m ->].
  destruct (put_all_lookup_cases (table w) (take m (items_of (table w) event)) k)
    as [[_ Hl] | (i & Hi%(subseteq_take m) & Hik & _)]; [done |].
  apply items_of_elem in Hi as (raw & Hraw & _ & Hkey).
  destruct (Hk raw Hraw). by rewrite <- Hkey.
Qed.

(** No call removes a breach name from a stored record: the breach list
    stored for an email before a call is a prefix of the list stored for it
    after the call, whatever the call returns. *)
Theorem Handler_never_removes_breaches w event raw breaches :
  stored_breaches (table w) raw = Some breaches ->
  exists breaches',
    stored_breaches (table (fst (Handler w event))) raw = Some breaches' /\
    breaches `prefix_of` breaches'.
Proof.
  unfold stored_breaches. set (k := (PK (account_of raw), SK (account_of raw))).
  destruct (table w !! k) as [item |] eqn:Hitem; [| done]. intros [= <-].
  destruct (Handler_table w event) as [m ->].
  destruct (put_all_lookup_cases (table w) (take m (items_of (table w) event)) k)
    as [[_ ->] | (i & Hi%(subseteq_take m) & Hik & ->)].
  - rewrite Hitem. by eexists.
  - apply items_of_elem in Hi as (raw' & _ & -> & Hkey).
    rewrite unmarshal_marshal. cbn [fst]. eexists. split; [done |].
    unfold updated. cbn [Breaches with_Breaches].
    rewrite Hik in Hkey. rewrite <- Hkey, Hitem.
    unfold merged_breaches. destruct (contains _ _); [done | by apply prefix_app_r].
Qed.

(** Two calls that return no error, for the same breach name on tables with
    the same content, leave the same table when their batches have the same
    emails, in whatever order and however often each is repeated. *)
Theorem Handler_batch_order_is_irrelevant w1 w2 event1 event2 :
  table w1 = table w2 ->
  BreachName event1 = BreachName event2 ->
  (forall raw, raw ∈ Accounts event1 <-> raw ∈ Accounts event2) ->
  snd (snd (Handler w1 event1)) = None ->
  snd (snd (Handler w2 event2)) = None ->
  table (fst (Handler w1 event1)) = table (fst (Handler w2 event2)).
Proof.
  intros Htbl Hb Hsame H1 H2.
  destruct (Handler w1 event1) as [w1' [r1 e1]] eqn:HH1.
  destruct (Handler w2 event2) as [w2' [r2 e2]] eqn:HH2. simpl in *. subst e1 e2.
  apply Handler_ok_inv in HH1 as (_ & Ht1 & _). apply Handler_ok_inv in HH2 as (_ & Ht2 & _).
  rewrite map_map, map_map in Ht1, Ht2.
  fold (items_of (table w1) event1) in Ht1. fold (items_of (table w2) event2) in Ht2.
  rewrite Ht1, Ht2, <- Htbl. clear Ht1 Ht2.
  assert (Hitems : forall i, i ∈ items_of (table w1) event1 <-> i ∈ items_of (table w1) event2).
  { intros i. unfold items_of. rewrite !list_elem_of_fmap, Hb.
    split; intros (raw & -> & Hraw); exists raw; (split; [done |]); by apply Hsame. }
  apply map_eq. intros k.
  destruct (put_all_lookup_cases (table w1) (items_of (table w1) event1) k)
    as [[Hall ->] | (i & Hi & Hik & ->)].
  - destruct (put_all_lookup_cases (table w1) (items_of (table w1) event2) k)
      as [[_ ->] | (i & Hi & Hik & _)]; [done |].
    apply Hitems in Hi. rewrite Forall_forall in Hall. by destruct (Hall i Hi).
  - rewrite <- Hik. symmetry. apply put_all_lookup; [| by apply Hitems].
    intros x y. by apply items_of_key.
Qed.

Lemma put_all_twice (tbl : gmap (string * string) Item) items m :
  (forall x y, x ∈ items -> y ∈ items -> item_key x = item_key y -> x = y) ->
  put_all (put_all tbl (take m items)) items = put_all tbl items.
Proof.
  intros Hkey. apply map_eq. intros k.
  destruct (put_all_lookup_cases tbl items k) as [[Hall ->] | (i & Hi & <- & ->)].
  - rewrite Forall_forall in Hall.
    destruct (put_all_lookup_cases (put_all tbl (take m items)) items k)
      as [[_ ->] | (i & Hi & Hik & _)]; [| by destruct (Hall i Hi)].
    destruct (put_all_lookup_cases tbl (take m items) k)
      as [[_ ->] | (i & Hi%(subseteq_take m) & Hik & _)]; [done | by destruct (Hall i Hi)].
  - by apply put_all_lookup.
Qed.

Lemma updated_after_some_writes tbl event m raw :
  updated (put_all tbl (take m (items_of tbl event))) (BreachName event) (account_of raw) =
  updated tbl (BreachName event) (account_of raw).
Proof.
  unfold updated at 1.
  destruct (put_all_lookup_cases tbl (take m (items_of tbl event))
              (PK (account_of raw), SK (account_of raw)))
    as [[_ ->] | (i & Hi%(subseteq_take m) & Hik & ->)]; [done |].
  apply items_of_elem in Hi as (raw' & _ & -> & Hkey). rewrite Hik in Hkey.
  rewrite <- (account_of_key_inj raw raw' (f_equal fst Hkey) (f_equal snd Hkey)).
  rewrite unmarshal_marshal. cbn [fst]. unfold merged_breaches.
  pose proof (updated_has tbl (BreachName event) (account_of raw)) as Hin.
  apply contains_spec in Hin. by rewrite Hin.
Qed.

(** A call made again after a first attempt, whatever the first attempt
    returned, leaves when it returns no error the table that one call with no
    error leaves on the table the first attempt found. *)
Theorem Handler_retry_completes w w' event :
  table w' = table w ->
  snd (snd (Handler (fst (Handler w event)) event)) = None ->
  snd (snd (Handler w' event)) = None ->
  table (fst (Handler (fst (Handler w event)) event)) = table (fst (Handler w' event)).
Proof.
  intros Htbl H2 H1.
  destruct (Handler_table w event) as [m Hm].
  set (w1 := fst (Handler w event)) in *.
  destruct (Handler w1 event) as [w2 [r2 e2]] eqn:HH2.
  destruct (Handler w' event) as [w1' [r1 e1]] eqn:HH1. simpl in *. subst e1 e2.
  apply Handler_ok_inv in HH1 as (_ & Ht1 & _). apply Handler_ok_inv in HH2 as (_ & Ht2 & _).
  rewrite map_map, map_map in Ht1, Ht2.
  fold (items_of (table w') event) in Ht1. fold (items_of (table w1) event) in Ht2.
  rewrite Ht1, Ht2, Htbl.
  assert (Hitems : items_of (table w1) event = items_of (table w) event).
  { unfold items_of at 1. rewrite Hm. unfold items_of at 2. apply map_ext.
    intros raw. by rewrite updated_after_some_writes. }
  rewrite Hitems, Hm. apply put_all_twice. intros x y. by apply items_of_key.
Qed.

(** Calls made one after the other on a table of well-formed records, each
    returning what it may, leave a table of well-formed records; so does any
    sequence of calls that starts on an empty table. *)
Theorem runs_keep_records_well_formed w events :
  table_inv (table w) \/ table w = ∅ ->
  table_inv (table (run w events)).
Proof.
  intros Hstart. assert (Hinv : table_inv (table w)).
  { destruct Hstart as [H | H]; [done |]. intros k item. by rewrite H, lookup_empty. }
  clear Hstart. revert w Hinv.
  induction events as [| event rest IH]; intros w Hinv; simpl; [done |].
  apply IH. destruct (Handler_table w event) as [m ->]. apply put_all_inv; try done.
  intros i Hi%(subseteq_take m). by apply (items_of_well_formed (table w) event).
Qed.

End Stored.

(** ** The response body that does not encode *)

Section Serialization.
Context {sdk : SDK}.


End Serialization.

(** ** The properties on the in-memory table *)

Import Sample.

#[local] Existing Instance Mem.sdk.

Lemma mem_unmarshal_marshal (a : Account) :
  UnmarshalMap (SDK := Mem.sdk) (fst (MarshalMap a)) = (a, None).
Proof. reflexivity. Qed.

Lemma mem_marshal_key (a : Account) :
  item_key (SDK := Mem.sdk) (fst (MarshalMap a)) = (PK a, SK a).
Proof. reflexivity. Qed.

Lemma w_alice_decodable accounts : decodable (table w_alice) accounts.
Proof.
  intros a item _ H. simpl in H.
  destruct (decide (("EMAIL#example.com", "EMAIL#alice") = (PK a, SK a))) as [Heq | Hne].
  - rewrite <- Heq, lookup_singleton_eq in H. by injection H as <-.
  - by rewrite lookup_singleton_ne in H.
Qed.

Lemma w_alice_inv : table_inv (table w_alice).
Proof.
  intros k item H. simpl in H.
  destruct (decide (("EMAIL#example.com", "EMAIL#alice") = k)) as [<- | Hne].
  - rewrite lookup_singleton_eq in H. injection H as <-.
    exists alice_LeakA. split; [done |]. split; [done |].
    split; [done |]. split; [by exists "alice", "example.com" |].
    apply NoDup_singleton.
  - by rewrite lookup_singleton_ne in H.
Qed.

Example new_account_creation :
  stored_breaches (table (fst (Handler Mem.empty_world
    {| Accounts := ["bob@example.org"]; BreachName := "LeakA" |}))) "bob@example.org"
  = Some ["LeakA"].
Proof. by vm_compute. Qed.

Example union_merge :
  stored_breaches (table (fst (Handler w_alice
    {| Accounts := ["alice@example.com"]; BreachName := "LeakB" |}))) "alice@example.com"
  = Some ["LeakA"; "LeakB"].
Proof. by vm_compute. Qed.

Example duplicate_breach_no_op :
  let r := Handler w_alice {| Accounts := ["alice@example.com"]; BreachName := "LeakA" |} in
  stored_breaches (table (fst r)) "alice@example.com" = Some ["LeakA"] /\
  fst (snd r) = success_response 1 "LeakA".
Proof. by vm_compute. Qed.

(** C2, as the claim states it, fails: the fetch for the second account of
    the batch fails, and the record of the first account has not been
    written. *)
Lemma earlier_account_not_written :
  let '(w', (resp, err)) := Handler w_timeout (alice_bob "BigLeak") in
  err = Some "timeout" /\
  trace w' = [EvGetItem "EMAIL#example.com" "EMAIL#alice" None;
              EvGetItem "EMAIL#example.org" "EMAIL#bob" (Some "timeout")] /\
  stored_breaches (table w') "alice@example.com" = None /\
  table w' = ∅.
Proof. by vm_compute. Qed.

Lemma read_failure_leaves_table_witness :
  Handler w_timeout (alice_bob "BigLeak") =
    ({| table := ∅; outcomes := [];
        trace := [EvGetItem "EMAIL#example.com" "EMAIL#alice" None;
                  EvGetItem "EMAIL#example.org" "EMAIL#bob" (Some "timeout")] |},
     (error_response "Invalid email: timeout", Some "timeout")).
Proof.
  apply (read_failure_leaves_table (sdk := Mem.sdk) w_timeout (alice_bob "BigLeak")
           ["alice@example.com"] "bob@example.org" [] "timeout" []).
  - reflexivity.
  - reflexivity.
  - intros a item _ H. simpl in H. by rewrite lookup_empty in H.
Defined.

Lemma merge_cases_witness :
  let accounts := [account_of "alice@example.com"; account_of "bob@example.org"] in
  let r := setAccountBreaches w_alice accounts "LeakB" in
  snd (snd r) = None /\
  map Breaches (fst (snd r)) = [["LeakA"; "LeakB"]; ["LeakB"]] /\
  Forall2 (fun a a' =>
      PK a' = PK a /\ SK a' = SK a /\ Type_ a' = Type_ a /\ Account_ a' = Account_ a /\
      match table w_alice !! (PK a, SK a) with
      | None => Breaches a' = ["LeakB"]
      | Some item =>
          let existing := Breaches (fst (UnmarshalMap item)) in
          ("LeakB" ∈ existing -> Breaches a' = existing) /\
          ("LeakB" ∉ existing ->
             Breaches a' = existing ++ ["LeakB"] /\
             forall x, x ∈ Breaches a' <-> x ∈ existing \/ x = "LeakB")
      end)
    accounts (fst (snd r)).
Proof.
  intros accounts r. split; [by vm_compute |]. split; [by vm_compute |].
  apply (merge_cases (sdk := Mem.sdk) w_alice accounts "LeakB" (fst r)).
  by vm_compute.
Defined.

Lemma Handler_idempotent_witness :
  let w1 := fst (Handler w_alice (alice_bob "LeakB")) in
  let w2 := fst (Handler w1 (alice_bob "LeakB")) in
  snd (snd (Handler w_alice (alice_bob "LeakB"))) = None /\
  table w2 = table w1 /\
  forall raw, raw ∈ Accounts (alice_bob "LeakB") ->
    exists breaches,
      stored_breaches (table w1) raw = Some breaches /\
      stored_breaches (table w2) raw = Some breaches /\
      "LeakB" ∈ breaches.
Proof.
  intros w1 w2. split; [by vm_compute |].
  apply (Handler_idempotent (sdk := Mem.sdk) mem_unmarshal_marshal mem_marshal_key
           w_alice (alice_bob "LeakB")).
  by vm_compute.
Defined.

Lemma Handler_keeps_records_well_formed_witness :
  table_inv (table w_alice) /\
  table_inv (table (fst (Handler w_alice (alice_bob "LeakA")))).
Proof.
  split; [exact w_alice_inv |].
  apply (Handler_keeps_records_well_formed (sdk := Mem.sdk)
           mem_unmarshal_marshal mem_marshal_key w_alice (alice_bob "LeakA") w_alice_inv).
Defined.

Lemma Handler_success_message_witness :
  snd (Handler w_alice (alice_bob "LeakB")) =
    ({| StatusCode := 200;
        Headers := [("Content-Type", "application/json")];
        Body := fst (json_Marshal (SDK := Mem.sdk)
                       [("message",
                         "Successfully added/updated 2 accounts to the LeakB breach.")]);
        IsBase64Encoded := false |}, None).
Proof.
  apply (Handler_success_message (sdk := Mem.sdk) w_alice (alice_bob "LeakB")).
  - reflexivity.
  - apply Forall_nil_2.
  - apply w_alice_decodable.
Defined.

Lemma Handler_empty_batch_witness :
  Handler w_alice {| Accounts := []; BreachName := "LeakB" |} =
    (w_alice,
     ({| StatusCode := 200;
         Headers := [("Content-Type", "application/json")];
         Body := fst (json_Marshal (SDK := Mem.sdk)
                        [("message",
                          "Successfully added/updated 0 accounts to the LeakB breach.")]);
         IsBase64Encoded := false |}, None)).
Proof.
  apply (Handler_empty_batch (sdk := Mem.sdk) w_alice "LeakB"). reflexivity.
Defined.

(** ** The further properties on the in-memory table *)

Lemma NewEmail_accepts_printable_ascii_witness :
  NewEmail "bob@example.org" = ({| Domain := "example.org"; Alias := "bob" |}, None) /\
  Forall (fun c => 33 <= nat_of_ascii c <= 126)
         (String.list_ascii_of_string "bob@example.org").
Proof.
  split; [by vm_compute |].
  apply (NewEmail_accepts_printable_ascii "bob@example.org"
           {| Domain := "example.org"; Alias := "bob" |}).
  by vm_compute.
Defined.

Lemma accepted_emails_have_distinct_keys_witness :
  let e := {| Domain := "example.org"; Alias := "bob" |} in
  NewEmail "bob@example.org" = (e, None) /\ "bob@example.org" = "bob@example.org".
Proof.
  intros e. split; [by vm_compute |].
  apply (accepted_emails_have_distinct_keys "bob@example.org" "bob@example.org" e e);
    by vm_compute.
Defined.

Lemma write_failure_keeps_earlier_writes_witness :
  let r := Handler Cases.w_put_timeout (alice_bob "LeakB") in
  snd (snd r) = Some "timeout" /\
  StatusCode (fst (snd r)) = 400 /\
  stored_breaches (table (fst r)) "alice@example.com" = Some ["LeakA"; "LeakB"] /\
  stored_breaches (table (fst r)) "bob@example.org" = None.
Proof.
  intros r. unfold r.
  rewrite (write_failure_keeps_earlier_writes (sdk := Mem.sdk) Cases.w_put_timeout
             (alice_bob "LeakB") ["alice@example.com"] "bob@example.org" [] "timeout" []).
  - by vm_compute.
  - reflexivity.
  - reflexivity.
  - apply w_alice_decodable.
Defined.

Lemma undecodable_record_aborts_call_witness :
  Handler Cases.w_foreign (alice_bob "LeakB") =
    ({| table := table Cases.w_foreign;
        outcomes := [];
        trace := [EvGetItem "EMAIL#example.com" "EMAIL#alice" None] |},
     (error_response "Invalid email: UnmarshalTypeError", Some "UnmarshalTypeError")).
Proof.
  apply (undecodable_record_aborts_call (sdk := Mem.sdk) Cases.w_foreign (alice_bob "LeakB")
           [] "alice@example.com" ["bob@example.org"]
           (Mem.OtherItem "EMAIL#example.com" "EMAIL#alice") "UnmarshalTypeError").
  - reflexivity.
  - apply Forall_nil_2.
  - by intros a item Ha%elem_of_nil.
  - by vm_compute.
  - reflexivity.
Defined.

Lemma Handler_leaves_other_records_witness :
  let event := {| Accounts := ["bob@example.org"]; BreachName := "LeakB" |} in
  let k := ("EMAIL#example.com", "EMAIL#alice") in
  table (fst (Handler w_alice event)) !! k = table w_alice !! k.
Proof.
  intros event k.
  apply (Handler_leaves_other_records (sdk := Mem.sdk) mem_marshal_key w_alice event k).
  intros raw ->%list_elem_of_singleton. by vm_compute.
Defined.

Lemma Handler_never_removes_breaches_witness :
  stored_breaches (table w_alice) "alice@example.com" = Some ["LeakA"] /\
  exists breaches',
    stored_breaches (table (fst (Handler w_alice (alice_bob "LeakB")))) "alice@example.com"
      = Some breaches' /\
    ["LeakA"] `prefix_of` breaches'.
Proof.
  split; [by vm_compute |].
  apply (Handler_never_removes_breaches (sdk := Mem.sdk) mem_unmarshal_marshal mem_marshal_key
           w_alice (alice_bob "LeakB") "alice@example.com" ["LeakA"]).
  by vm_compute.
Defined.

Lemma Handler_batch_order_is_irrelevant_witness :
  table (fst (Handler w_alice (alice_bob "LeakB"))) =
  table (fst (Handler w_alice (Cases.bob_alice_bob "LeakB"))).
Proof.
  apply (Handler_batch_order_is_irrelevant (sdk := Mem.sdk) mem_marshal_key
           w_alice w_alice (alice_bob "LeakB") (Cases.bob_alice_bob "LeakB")).
  - reflexivity.
  - reflexivity.
  - intros raw. simpl. rewrite !elem_of_cons, !elem_of_nil. tauto.
  - by vm_compute.
  - by vm_compute.
Defined.

Lemma runs_keep_records_well_formed_witness :
  table_inv (table (run Mem.empty_world
                      [alice_bob "LeakA"; alice_bob "LeakA"; batch_alice_bad])).
Proof.
  apply (runs_keep_records_well_formed (sdk := Mem.sdk) mem_unmarshal_marshal mem_marshal_key
           Mem.empty_world).
  right. reflexivity.
Defined.

Lemma Handler_retry_completes_witness :
  let event := alice_bob "LeakB" in
  snd (snd (Handler Cases.w_put_timeout event)) = Some "timeout" /\
  table (fst (Handler (fst (Handler Cases.w_put_timeout event)) event)) =
  table (fst (Handler w_alice event)).
Proof.
  intros event. split; [by vm_compute |].
  apply (Handler_retry_completes (sdk := Mem.sdk) mem_unmarshal_marshal mem_marshal_key
           Cases.w_put_timeout w_alice event).
  - reflexivity.
  - by vm_compute.
  - by vm_compute.
Defined.

